(** * meetai: speaker/transcript fusion and speaker identification

    A shallow embedding of [buildspeakertraans.py] and
    [speakerrecogniser.py], and the properties of the two the
    specification states.

    Modelling conventions.
    - A Python [str] is a list of characters, [list ascii]; a non-ASCII
      character is the run of its UTF-8 bytes.  The character classes
      [\s] and [\d], [str.strip] and [str.split] are modelled on their
      ASCII members.
    - A Python [float] is a rational number of [Q]: comparison,
      [min], [max], the arithmetic and [float(s)] are the exact ones.
      Infinities, NaN and rounding are outside the model.
    - The embedding network and scipy's [cosine] are parameters: the
      theorems hold for every embedder, which may raise, and every
      distance.  The concrete runs use the exact cosine distance on
      rational vectors.
    - A [dict] that is iterated is an association list in insertion
      order; a [dict] that is only looked up is a [gmap].
    - [sys.exit] and an exception that nothing catches are the two
      abnormal outcomes of type [outcome]. *)

From Stdlib Require Import QArith Qround Qabs ZArith List String Ascii Lia Lqa.
From stdpp Require Import gmap strings list fin_maps pretty.

(** ** Python values *)

Abbreviation str := (list ascii).

Definition s2l (s : string) : str := list_ascii_of_string s.

(** [x < y] on floats, as a boolean. *)
Definition Qltb (x y : Q) : bool :=
  match (x ?= y)%Q with Lt => true | _ => false end.

(** The builtin [min(a, b)]: the first argument unless the second is
    strictly smaller. *)
Definition py_min (a b : Q) : Q := if Qltb b a then b else a.

(** The builtin [max(a, b)]: the first argument unless the second is
    strictly larger. *)
Definition py_max (a b : Q) : Q := if Qltb a b then b else a.

(** How a run ends: normally, through [fail] ([sys.exit(1)] after the
    message), or with an exception nobody catches. *)
Inductive outcome (A : Type) : Type :=
  | Ok (a : A)
  | Exit (code : Z) (msg : str)
  | Raise (exc : str).
Arguments Ok {A} a.
Arguments Exit {A} code msg.
Arguments Raise {A} exc.

#[global] Instance outcome_ret : MRet outcome := fun A a => Ok a.

#[global] Instance outcome_bind : MBind outcome := fun A B k m =>
  match m with
  | Ok a => k a
  | Exit c msg => Exit c msg
  | Raise e => Raise e
  end.

(** [fail(msg)]. *)
Definition fail {A : Type} (msg : string) : outcome A := Exit 1 (s2l msg).

Definition aborts {A : Type} (m : outcome A) : Prop :=
  match m with Ok _ => False | _ => True end.

(** ** [buildspeakertraans.py]: attribution by overlap *)

Definition interval : Type := Q * Q.

(** [diar_segments]: label -> intervals, in insertion order. *)
Definition diarization : Type := list (str * list interval).

Definition UNKNOWN : str := s2l "UNKNOWN".

(** [min(end, e) - max(start, s)]. *)
Definition overlap (start end_ : Q) (iv : interval) : Q :=
  (py_min end_ (snd iv) - py_max start (fst iv))%Q.

(** The body of the inner loop of [find_speaker]: the state is
    [(best_spk, best_overlap)]. *)
Definition find_speaker_step (start end_ : Q) (spk : str)
    (st : str * Q) (iv : interval) : str * Q :=
  let ov := overlap start end_ iv in
  if Qltb (snd st) ov && Qltb 0 ov then (spk, ov) else st.

Definition find_speaker_loop (start end_ : Q) (diar_segments : diarization)
    (st : str * Q) : str * Q :=
  fold_left
    (fun st (item : str * list interval) =>
       fold_left (find_speaker_step start end_ (fst item)) (snd item) st)
    diar_segments st.

Definition find_speaker (start end_ : Q) (diar_segments : diarization) : str :=
  fst (find_speaker_loop start end_ diar_segments (UNKNOWN, 0%Q)).

(** Every interval with its label, in the order the two loops visit them. *)
Definition labelled_intervals (d : diarization) : list (str * interval) :=
  flat_map (fun item : str * list interval =>
              map (fun iv => (fst item, iv)) (snd item)) d.

(** The intervals of the specification's example: A = [0,5) under S1,
    B = [5,10) under S2. *)
Definition S1 : str := s2l "S1".
Definition S2 : str := s2l "S2".
Definition diar_AB : diarization :=
  [ (S1, [(0, 5)%Q]); (S2, [(5, 10)%Q]) ].

(** ** [speakerrecogniser.py]: nearest enrolled speaker *)

Definition THRESHOLD : Q := 0.70.

Definition Unknown : str := s2l "Unknown".

Section Recogniser.
(** A clip of samples, an embedding, and the two library calls of
    [identify_speaker]: [classifier.encode_batch], which may raise, and
    scipy's [cosine]. *)
Context {Sample Emb : Type}.
Variable encode_batch : list Sample -> outcome Emb.
Variable cosine : Emb -> Emb -> Q.

(** [SPEAKERS]: name -> reference embedding, in the order of the pickled
    dict. *)
Variable SPEAKERS : list (str * Emb).

(** The body of the loop over [SPEAKERS.items()]: the state is
    [(best_name, best_score)]. *)
Definition identify_step (emb : Emb) (st : str * Q) (entry : str * Emb) : str * Q :=
  let score := cosine emb (snd entry) in
  if Qltb score (snd st) then (fst entry, score) else st.

(** Lines 30 to 42 of [identify_speaker], from the embedding on. *)
Definition identify_embedding (emb : Emb) : str * Q :=
  let best := fold_left (identify_step emb) SPEAKERS (Unknown, 1.0%Q) in
  if Qltb THRESHOLD (snd best) then (Unknown, snd best) else best.

Definition identify_speaker (audio_np : list Sample) : outcome (str * Q) :=
  emb ← encode_batch audio_np;
  mret (identify_embedding emb).

End Recogniser.

(** The cosine distance [1 - u.v / (|u| |v|)] on rational vectors, for
    the concrete runs below.  The square root is the exact one when
    [(u.u) (v.v)] is the square of a rational, which it is in every run
    of this file. *)
Definition dot (u v : list Q) : Q :=
  fold_right Qplus 0%Q (zip_with Qmult u v).

Definition Qsqrt (q : Q) : Q :=
  let r := Qred q in (Z.sqrt (Qnum r) # Pos.sqrt (Qden r))%Q.

Definition cosine_q (u v : list Q) : Q :=
  (1 - dot u v / Qsqrt (dot u u * dot v v))%Q.

(** An embedder for the concrete runs: the clip is its own embedding,
    and a clip without samples is refused with an exception. *)
Definition embed_clip (clip : list Q) : outcome (list Q) :=
  match clip with
  | [] => Raise (s2l "RuntimeError")
  | _ => Ok clip
  end.

(** ** [buildspeakertraans.py]: enrollment resolution *)

Definition SAMPLE_RATE : Z := 16000.

(** [int(x)] on a float: truncation toward zero. *)
Definition py_int (x : Q) : Z := Z.quot (Qnum x) (Z.pos (Qden x)).

(** A slice bound [i] on a sequence of length [n]: a negative bound
    counts from the end, and both ends are clipped. *)
Definition slice_bound (n i : Z) : Z :=
  if (i <? 0)%Z then Z.max (i + n) 0 else Z.min i n.

(** [l[s:e]]. *)
Definition py_slice {A : Type} (l : list A) (s e : Z) : list A :=
  let n := Z.of_nat (length l) in
  let s' := slice_bound n s in
  let e' := slice_bound n e in
  take (Z.to_nat (e' - s')) (drop (Z.to_nat s') l).

(** [sum(len(x) for x in samples)]. *)
Definition total_len {A : Type} (samples : list (list A)) : Z :=
  fold_right (fun x acc => (Z.of_nat (length x) + acc)%Z) 0%Z samples.

(** [audio[int(start * SAMPLE_RATE) : int(end * SAMPLE_RATE)]]. *)
Definition window {A : Type} (audio : list A) (iv : interval) : list A :=
  py_slice audio (py_int (fst iv * inject_Z SAMPLE_RATE))
                 (py_int (snd iv * inject_Z SAMPLE_RATE)).

(** The inner loop of [build_speaker_name_map]: append the slice, then
    leave the loop when the samples so far exceed 15 seconds. *)
Fixpoint collect_samples {A : Type} (audio : list A) (times : list interval)
    (samples : list (list A)) : list (list A) :=
  match times with
  | [] => samples
  | iv :: rest =>
      let samples' := samples ++ [window audio iv] in
      if (SAMPLE_RATE * 15 <? total_len samples')%Z then samples'
      else collect_samples audio rest samples'
  end.

(** [np.concatenate(samples)]: numpy refuses an empty list of arrays. *)
Definition np_concatenate {A : Type} (samples : list (list A)) : outcome (list A) :=
  match samples with
  | [] => Raise (s2l "ValueError")
  | _ => Ok (concat samples)
  end.

Section Enrollment.
Context {Sample Emb : Type}.
Variable encode_batch : list Sample -> outcome Emb.
Variable cosine : Emb -> Emb -> Q.
Variable SPEAKERS : list (str * Emb).

(** The clip of one label. *)
Definition label_clip (audio : list Sample) (times : list interval)
    : outcome (list Sample) :=
  np_concatenate (collect_samples audio times []).

(** The outer loop of [build_speaker_name_map] over
    [diar_segments.items()]; the line it prints for each label is left
    out. *)
Fixpoint build_loop (audio : list Sample) (items : diarization)
    (speaker_map : gmap str str) : outcome (gmap str str) :=
  match items with
  | [] => Ok speaker_map
  | (spk, times) :: rest =>
      clip ← label_clip audio times;
      r ← identify_speaker encode_batch cosine SPEAKERS clip;
      build_loop audio rest (<[spk := fst r]> speaker_map)
  end.

Definition build_speaker_name_map (audio : list Sample) (diar_segments : diarization)
    : outcome (gmap str str) :=
  build_loop audio diar_segments ∅.

End Enrollment.

(** ** Strings: [strip], [split], [float] *)

Definition is_space (c : ascii) : bool :=
  let n := N_of_ascii c in
  ((9 <=? n) && (n <=? 13) || (28 <=? n) && (n <=? 32))%N.

Definition is_digit (c : ascii) : bool :=
  let n := N_of_ascii c in ((48 <=? n) && (n <=? 57))%N.

Fixpoint drop_while {A : Type} (p : A -> bool) (l : list A) : list A :=
  match l with
  | [] => []
  | x :: l' => if p x then drop_while p l' else l
  end.

Fixpoint take_while {A : Type} (p : A -> bool) (l : list A) : list A :=
  match l with
  | [] => []
  | x :: l' => if p x then x :: take_while p l' else []
  end.

(** [s.lstrip()], [s.rstrip()] and [s.strip()]. *)
Definition py_lstrip (s : str) : str := drop_while is_space s.

Definition py_rstrip (s : str) : str := rev (drop_while is_space (rev s)).

Definition py_strip (s : str) : str := py_rstrip (py_lstrip s).

(** [s.split()]: the maximal runs of non-blank characters; [cur] is the
    run being read, last character first. *)
Fixpoint split_loop (s : str) (cur : str) : list str :=
  match s with
  | [] => match cur with [] => [] | _ => [rev cur] end
  | c :: s' =>
      if is_space c then
        match cur with
        | [] => split_loop s' []
        | _ => rev cur :: split_loop s' []
        end
      else split_loop s' (c :: cur)
  end.

Definition py_split (s : str) : list str := split_loop s [].

(** The value of a run of decimal digits read after [acc]. *)
Definition digits_value (acc : Z) (s : str) : Z :=
  fold_left (fun a c => (10 * a + (Z.of_N (N_of_ascii c) - 48))%Z) s acc.

Definition pow10 (e : Z) : Q :=
  if (e <? 0)%Z then (1 # Pos.pow 10 (Z.to_pos (- e)))%Q
  else inject_Z (10 ^ e).

(** The exponent part of a float literal: nothing, or [e] or [E], an
    optional sign and at least one digit, up to the end. *)
Definition float_exponent (s : str) : option Z :=
  match s with
  | [] => Some 0%Z
  | c :: t =>
      if (N_of_ascii c =? 101)%N || (N_of_ascii c =? 69)%N then
        let '(neg, t) := match t with
                         | d :: t' => if (N_of_ascii d =? 45)%N then (true, t')
                                      else if (N_of_ascii d =? 43)%N then (false, t')
                                      else (false, t)
                         | [] => (false, t)
                         end in
        match t with
        | [] => None
        | _ => if forallb is_digit t
               then Some (if neg then (- digits_value 0 t)%Z else digits_value 0 t)
               else None
        end
      else None
  end.

(** [float(s)] on a decimal literal: blanks around it, a sign, digits
    with an optional point and at least one digit, an optional exponent;
    the value is the exact one.  [None] is the [ValueError] of a text
    that is not a number.  The literals [inf] and [nan] and the
    underscores between digits, which [float] reads too, have no
    rational value and are not modelled. *)
Definition py_float (s : str) : option Q :=
  let s := py_strip s in
  let '(neg, s) := match s with
                   | c :: t => if (N_of_ascii c =? 45)%N then (true, t)
                               else if (N_of_ascii c =? 43)%N then (false, t)
                               else (false, s)
                   | [] => (false, s)
                   end in
  let ip := take_while is_digit s in
  let s1 := drop_while is_digit s in
  let '(fp, s2) := match s1 with
                   | c :: t => if (N_of_ascii c =? 46)%N
                               then (take_while is_digit t, drop_while is_digit t)
                               else ([], s1)
                   | [] => ([], s1)
                   end in
  match ip ++ fp with
  | [] => None
  | ds =>
      match float_exponent s2 with
      | None => None
      | Some ex =>
          let m := (inject_Z (digits_value 0 ds) * pow10 (ex - Z.of_nat (length fp)))%Q in
          Some (if neg then (- m)%Q else m)
      end
  end.

(** ** Regular expressions

    A pattern is a function from the continuation of the match to a
    matcher of the input, so the alternatives are tried in the order of
    the backtracking engine of [re]: a greedy repetition tries the
    longest run first, an alternation its branches from left to right. *)

Section Regex.
Context {R : Type}.

Definition matcher : Type := str -> option R.

(** One given character. *)
Definition lit (c : ascii) (k : matcher) : matcher := fun s =>
  match s with
  | c' :: s' => if Ascii.eqb c c' then k s' else None
  | [] => None
  end.

(** A given word. *)
Definition word (w : str) (k : matcher) : matcher :=
  fold_right lit k w.

(** [c*] for a character class [c], greedy. *)
Fixpoint star (p : ascii -> bool) (k : matcher) (s : str) : option R :=
  match s with
  | c :: s' =>
      if p c then
        match star p k s' with
        | Some r => Some r
        | None => k s
        end
      else k s
  | [] => k s
  end.

(** [c+], greedy. *)
Definition plus (p : ascii -> bool) (k : matcher) : matcher := fun s =>
  match s with
  | c :: s' => if p c then star p k s' else None
  | [] => None
  end.

(** [r?], greedy. *)
Definition opt (r : matcher -> matcher) (k : matcher) : matcher := fun s =>
  match r k s with
  | Some x => Some x
  | None => k s
  end.

(** [r1|r2]. *)
Definition alt (r1 r2 : matcher -> matcher) (k : matcher) : matcher := fun s =>
  match r1 k s with
  | Some x => Some x
  | None => r2 k s
  end.

(** A capturing group [(r)]: the continuation receives the text the
    group matched. *)
Definition group (r : matcher -> matcher) (k : str -> matcher) : matcher := fun s =>
  r (fun rest => k (take (length s - length rest) s) rest) s.

End Regex.

(** [.]: any character but the newline. *)
Definition not_newline (c : ascii) : bool := negb (N_of_ascii c =? 10)%N.

(** [\d+\.?\d*]. *)
Definition re_number {R : Type} (k : @matcher R) : @matcher R :=
  plus is_digit (opt (lit "."%char) (star is_digit k)).

Definition arrow_right : str := s2l "→".
Definition arrow_ascii : str := s2l "->".
Definition en_dash : str := s2l "–".
Definition hyphen : str := s2l "-".

(** [(?:→|->|–|-)]. *)
Definition re_arrow {R : Type} : @matcher R -> @matcher R :=
  alt (word arrow_right) (alt (word arrow_ascii) (alt (word en_dash) (word hyphen))).

(** [pattern.match(s)] for the pattern of [load_transcript],
    written here with blanks between its parts,
    [\[ \s* ( \d+ \.? \d* ) \s* (?: → | -> | – | - ) \s* ( \d+ \.? \d* ) \s* \] \s* ( .+ )]:
    the three groups of the match. *)
Definition pattern_match (s : str) : option (str * str * str) :=
  lit "["%char (star is_space (group re_number (fun g1 =>
    star is_space (re_arrow (star is_space (group re_number (fun g2 =>
      star is_space (lit "]"%char (star is_space (group (plus not_newline) (fun g3 _ =>
        Some (g1, g2, g3)))))))))))) s.

(** ** [buildspeakertraans.py]: the two parsers *)

(** [segments[speaker].append(iv)] on the [defaultdict(list)]: a label
    already there keeps its place, a new one goes last. *)
Fixpoint dict_append (speaker : str) (iv : interval) (segments : diarization)
    : diarization :=
  match segments with
  | [] => [(speaker, [iv])]
  | (k, ivs) :: rest =>
      if decide (k = speaker) then (k, ivs ++ [iv]) :: rest
      else (k, ivs) :: dict_append speaker iv rest
  end.

Definition ValueError : str := s2l "ValueError".

(** [float(x)] where the failure is an exception. *)
Definition float_of (x : str) : outcome Q :=
  match py_float x with
  | Some q => Ok q
  | None => Raise ValueError
  end.

(** [p[i]] on a list that is long enough. *)
Definition field (p : list str) (i : nat) : str := nth i p [].

(** The loop of [load_rttm] over the lines of the file. *)
Fixpoint load_rttm_loop (lines : list str) (segments : diarization)
    : outcome diarization :=
  match lines with
  | [] => Ok segments
  | line :: rest =>
      let p := py_split (py_strip line) in
      if (length p <? 8)%nat then load_rttm_loop rest segments
      else
        start ← float_of (field p 3);
        dur ← float_of (field p 4);
        load_rttm_loop rest (dict_append (field p 7) (start, (start + dur)%Q) segments)
  end.

Definition load_rttm (lines : list str) : outcome diarization :=
  segments ← load_rttm_loop lines [];
  match segments with
  | [] => fail "No diarization segments found"
  | _ => Ok segments
  end.

(** One chunk of the transcript: [{"start": .., "end": .., "text": ..}]. *)
Record utterance : Type := Utterance {
  u_start : Q;
  u_end : Q;
  u_text : str
}.

(** The loop of [load_transcript] over the lines of the file. *)
Fixpoint load_transcript_loop (lines : list str) (chunks : list utterance)
    : outcome (list utterance) :=
  match lines with
  | [] => Ok chunks
  | line :: rest =>
      match pattern_match (py_strip line) with
      | Some (g1, g2, g3) =>
          start ← float_of g1;
          end_ ← float_of g2;
          load_transcript_loop rest (chunks ++ [Utterance start end_ g3])
      | None => load_transcript_loop rest chunks
      end
  end.

Definition load_transcript (lines : list str) : outcome (list utterance) :=
  chunks ← load_transcript_loop lines [];
  match chunks with
  | [] => fail "No transcript segments parsed"
  | _ => Ok chunks
  end.

(** ** [buildspeakertraans.py]: the fused lines *)

(** The nearest integer, a tie going to the even one. *)
Definition round_half_even (x : Q) : Z :=
  let n := Qnum x in
  let d := Z.pos (Qden x) in
  let fl := (n / d)%Z in
  match (2 * (n mod d) ?= d)%Z with
  | Lt => fl
  | Gt => (fl + 1)%Z
  | Eq => if Z.even fl then fl else (fl + 1)%Z
  end.

Definition digit_char (d : Z) : ascii := ascii_of_N (48 + Z.to_N d).

(** The number of hundredths [format(x, ".2f")] prints for [|x|]. *)
Definition hundredths (x : Q) : Z := round_half_even (Qabs x * 100).

(** [format(x, ".2f")]: the sign, the integer part, a point and two
    digits. *)
Definition format_2f (x : Q) : str :=
  let k := hundredths x in
  (if Qltb x 0 then s2l "-" else []) ++
  s2l (pretty (k / 100)%Z) ++ s2l "." ++
  [digit_char ((k / 10) mod 10); digit_char (k mod 10)].

(** [f"[{start:.2f}–{end:.2f}] {spk_name}: {text}"]. *)
Definition render_line (start end_ : Q) (spk_name text : str) : str :=
  s2l "[" ++ format_2f start ++ en_dash ++ format_2f end_ ++ s2l "] " ++
  spk_name ++ s2l ": " ++ text.

(** [speaker_name_map.get(spk_id, spk_id)]. *)
Definition display_name (speaker_name_map : gmap str str) (spk_id : str) : str :=
  default spk_id (speaker_name_map !! spk_id).

(** The body of the loop of [main] over the transcript: the line of one
    chunk. *)
Definition fused_line (diar_segments : diarization) (speaker_name_map : gmap str str)
    (t : utterance) : str :=
  let spk_id := find_speaker (u_start t) (u_end t) diar_segments in
  let spk_name := display_name speaker_name_map spk_id in
  render_line (u_start t) (u_end t) spk_name (u_text t).

(** The loop: [lines.append(...)] for each chunk in turn. *)
Definition fuse (transcript : list utterance) (diar_segments : diarization)
    (speaker_name_map : gmap str str) : list str :=
  fold_left (fun lines t => lines ++ [fused_line diar_segments speaker_name_map t])
            transcript [].

Section Main.
Context {Sample Emb : Type}.
Variable encode_batch : list Sample -> outcome Emb.
Variable cosine : Emb -> Emb -> Q.
Variable SPEAKERS : list (str * Emb).


End Main.

(** ** Concrete runs of the matcher *)

Definition Alice : str := s2l "Alice".
Definition Bob : str := s2l "Bob".

(** A query along the first axis. *)
Definition query_e1 : list Q := [1; 0; 0; 0]%Q.

(** One entry opposite to the query: cosine distance 2. *)
Definition db_opposite : list (str * list Q) := [(Bob, [-1; 0; 0; 0]%Q)].

(** One entry at cosine 3/10 of the query: cosine distance 7/10. *)
Definition db_boundary : list (str * list Q) := [(Alice, [3; 9; 3; 1]%Q)].

(** Two entries at the same distance 2/5, and a farther one first. *)
Definition db_tie : list (str * list Q) :=
  [(Bob, [0; 1; 0; 0]%Q); (Alice, [3; 4; 0; 0]%Q); (s2l "Carol", [3; 0; 4; 0]%Q)].

(** ** Concrete runs of the enrollment *)



(** A label whose only interval has no duration. *)
Definition SPEAKER_00 : str := s2l "SPEAKER_00".
Definition SPEAKER_01 : str := s2l "SPEAKER_01".
Definition diar_empty_label : diarization :=
  [ (SPEAKER_00, [(1, 1)%Q]); (SPEAKER_01, [(0, 1)%Q]) ].

(** An embedder that accepts every clip and returns the same
    embedding. *)
Definition embed_const (clip : list Q) : outcome (list Q) := Ok query_e1.

(** Four samples of audio. *)
Definition audio_4 : list Q := [1; 0; 0; 0]%Q.

(** ** A concrete run of the fusion *)

Definition transcript_2 : list utterance :=
  [ Utterance 0 4 (s2l "hello"); Utterance 20 21.5 (s2l "bye") ].

Definition names_S1 : gmap str str := <[S1 := Alice]> ∅.

(** ** The pattern of [load_transcript], read deterministically

    [\s*] and [\d+\.?\d*] are each followed by something that cannot
    start with a character they accept, so the longest run is the only
    one that can lead to a match.  The functions below read the prefix
    of the pattern that way; the proofs show that the backtracking
    matcher agrees with them. *)

(** What is left of [s] after the word [w]. *)
Fixpoint strip_prefix (w s : str) : option str :=
  match w with
  | [] => Some s
  | c :: w' =>
      match s with
      | c' :: s' => if Ascii.eqb c c' then strip_prefix w' s' else None
      | [] => None
      end
  end.

(** What is left of [s] after the longest [\d+\.?\d*]. *)
Definition number_end (s : str) : option str :=
  match s with
  | c :: s' =>
      if is_digit c then
        let s1 := drop_while is_digit s' in
        match s1 with
        | d :: t => if Ascii.eqb "."%char d then Some (drop_while is_digit t) else Some s1
        | [] => Some s1
        end
      else None
  | [] => None
  end.

(** What is left of [s] after the first arrow of [→|->|–|-] that
    matches. *)
Definition arrow_end (s : str) : option str :=
  match strip_prefix arrow_right s with
  | Some r => Some r
  | None =>
      match strip_prefix arrow_ascii s with
      | Some r => Some r
      | None =>
          match strip_prefix en_dash s with
          | Some r => Some r
          | None => strip_prefix hyphen s
          end
      end
  end.

(** The part of the pattern after the arrow, [g1] being the first
    group. *)
Definition after_arrow (g1 : str) : str -> option (str * str * str) :=
  star is_space (group re_number (fun g2 =>
    star is_space (lit "]"%char (star is_space (group (plus not_newline) (fun g3 _ =>
      Some (g1, g2, g3))))))).

(** The part of the pattern after the closing bracket. *)
Definition text_part (g1 g2 : str) : str -> option (str * str * str) :=
  star is_space (group (plus not_newline) (fun g3 _ => Some (g1, g2, g3))).

(** [s] is matched entirely by the pattern [r]. *)
Definition full_match (r : @matcher unit -> @matcher unit) (s : str) : bool :=
  match r (fun rest => match rest with [] => Some tt | _ => None end) s with
  | Some _ => true
  | None => false
  end.

(** The four arrows. *)
Definition glyphs : list str := [arrow_right; arrow_ascii; en_dash; hyphen].

(** Two lines that differ only in the arrow between the timestamps:
    blanks, the bracket, blanks, the first timestamp, blanks, an arrow,
    and the same rest, which does not start with [>] (after [-] that
    would read as the arrow [->]). *)
Definition glyph_variants (line1 line2 : str) : Prop :=
  exists lead ws1 n1 ws2 g1 g2 rest,
    forallb is_space lead = true /\
    forallb is_space ws1 = true /\
    full_match re_number n1 = true /\
    forallb is_space ws2 = true /\
    In g1 glyphs /\ In g2 glyphs /\
    (forall t, rest <> ">"%char :: t) /\
    line1 = lead ++ s2l "[" ++ ws1 ++ n1 ++ ws2 ++ g1 ++ rest /\
    line2 = lead ++ s2l "[" ++ ws1 ++ n1 ++ ws2 ++ g2 ++ rest.

(** ** Lines of the two files *)

(** The line has the eight fields [load_rttm] asks for. *)
Definition has_fields (line : str) : bool :=
  negb (length (py_split (py_strip line)) <? 8)%nat.



Definition newline : str := ["010"%char].



(** A good diarization file and a good transcript. *)
Definition rttm_good : list str :=
  [ s2l "SPEAKER meeting 1 0.50 1.25 <NA> <NA> SPEAKER_00 <NA> <NA>" ++ newline ].



(** The same line with two of the arrows. *)
Definition line_ascii_arrow : str := s2l "  [1.5 -> 2] hello world" ++ newline.
Definition line_en_dash : str := s2l "  [1.5 – 2] hello world" ++ newline.



(** ** One line at a time *)


(** The label and the interval [load_rttm] makes of a line, if it makes
    one. *)
Definition record_of (line : str) : option (str * interval) :=
  let p := py_split (py_strip line) in
  if has_fields line then
    match py_float (field p 3), py_float (field p 4) with
    | Some start, Some dur => Some (field p 7, (start, (start + dur)%Q))
    | _, _ => None
    end
  else None.

(** The intervals a dictionary holds under a label. *)
Definition intervals_of (spk : str) (d : diarization) : list interval :=
  flat_map (fun item : str * list interval =>
              if decide (fst item = spk) then snd item else []) d.

(** The intervals of a list of records that carry a label. *)
Definition records_of (spk : str) (recs : list (str * interval)) : list interval :=
  map snd (List.filter (fun r : str * interval => bool_decide (fst r = spk)) recs).

(** The dictionary groups the records read so far by label. *)
Definition grouped (recs : list (str * interval)) (d : diarization) : Prop :=
  NoDup (map fst d) /\
  Forall (fun item => snd item <> []) d /\
  (forall spk, intervals_of spk d = records_of spk recs) /\
  length (labelled_intervals d) = length recs.

(** ** [transcribe.py]: the transcript file *)









(** ** [orcastrate.py], step 3: the alignment by the start of the
    utterance *)

Module orcastrate.

(** [{"start": .., "end": .., "speaker": ..}]. *)
Record segment : Type := Segment {
  d_start : Q;
  d_end : Q;
  d_speaker : str
}.

(** The loop of [load_rttm]: a list of segments in the order of the
    file, from the lines of at least nine fields. *)
Fixpoint load_rttm_loop (lines : list str) (segments : list segment)
    : outcome (list segment) :=
  match lines with
  | [] => Ok segments
  | line :: rest =>
      let parts := py_split (py_strip line) in
      if (length parts <? 9)%nat then load_rttm_loop rest segments
      else
        start ← float_of (field parts 3);
        dur ← float_of (field parts 4);
        load_rttm_loop rest
          (segments ++ [Segment start (start + dur)%Q (field parts 7)])
  end.

Definition load_rttm (lines : list str) : outcome (list segment) :=
  load_rttm_loop lines [].

(** [\d+\.\d+]. *)
Definition re_decimal {R : Type} (k : @matcher R) : @matcher R :=
  plus is_digit (lit "."%char (plus is_digit k)).

(** [pattern.match(s)] for the pattern of this [load_transcript],
    written here with blanks between its parts,
    [\[ ( \d+ \. \d+ ) \s* → \s* ( \d+ \. \d+ ) \] \s* ( .* )]. *)
Definition pattern_match (s : str) : option (str * str * str) :=
  lit "["%char (group re_decimal (fun g1 =>
    star is_space (word arrow_right (star is_space (group re_decimal (fun g2 =>
      lit "]"%char (star is_space (group (star not_newline) (fun g3 _ =>
        Some (g1, g2, g3)))))))))) s.

Fixpoint load_transcript_loop (lines : list str) (chunks : list utterance)
    : outcome (list utterance) :=
  match lines with
  | [] => Ok chunks
  | line :: rest =>
      match pattern_match (py_strip line) with
      | Some (g1, g2, g3) =>
          start ← float_of g1;
          end_ ← float_of g2;
          load_transcript_loop rest (chunks ++ [Utterance start end_ g3])
      | None => load_transcript_loop rest chunks
      end
  end.

Definition load_transcript (lines : list str) : outcome (list utterance) :=
  load_transcript_loop lines [].

(** [find_speaker(start, diarization)]: the speaker of the first
    segment with [d["start"] <= start <= d["end"]]. *)
Fixpoint find_speaker (start : Q) (diarization : list segment) : str :=
  match diarization with
  | [] => UNKNOWN
  | d :: rest =>
      if Qle_bool (d_start d) start && Qle_bool start (d_end d)
      then d_speaker d
      else find_speaker start rest
  end.



(** The start lies in the segment, both ends included. *)
Definition holds (start : Q) (d : segment) : Prop :=
  (d_start d <= start)%Q /\ (start <= d_end d)%Q.

End orcastrate.


(** The label and the interval of a segment of [orcastrate.py]. *)
Definition segment_record (d : orcastrate.segment) : str * interval :=
  (orcastrate.d_speaker d, (orcastrate.d_start d, orcastrate.d_end d)).

(** No line has exactly eight fields, the number at which the two
    [load_rttm] differ. *)
Definition no_eight_field_line (lines : list str) : Prop :=
  Forall (fun line => length (py_split (py_strip line)) <> 8%nat) lines.

(** The two segments of the specification's example, for
    [orcastrate.py]. *)
Definition segs_AB : list orcastrate.segment :=
  [ orcastrate.Segment 0 5 S1; orcastrate.Segment 5 10 S2 ].

(** ** [server.py]: the file names it accepts *)

Module server.

Definition ALLOWED_EXTENSIONS : gset str :=
  {[ s2l "mp3"; s2l "wav"; s2l "m4a"; s2l "flac"; s2l "ogg" ]}.

Definition is_dot (c : ascii) : bool := Ascii.eqb "."%char c.

(** [s.lower()], on the letters A to Z; the other bytes stay.  A
    character outside ASCII keeps bytes above 127 here, and its
    lowercase in Python is no ASCII letter of the allowed extensions
    (the Kelvin sign lowers to [k], which none of them has), so the
    membership test of [allowed_file] is the same. *)
Definition lower_char (c : ascii) : ascii :=
  let n := N_of_ascii c in
  if ((65 <=? n) && (n <=? 90))%N then ascii_of_N (n + 32) else c.

Definition py_lower (s : str) : str := map lower_char s.

(** [s.rsplit('.', 1)]: the text before the last point and the text
    after it, or [s] alone when it has no point. *)
Fixpoint rsplit_dot (s : str) : list str :=
  match s with
  | [] => [[]]
  | c :: t =>
      match rsplit_dot t with
      | [a; b] => [c :: a; b]
      | _ => if is_dot c then [[]; t] else [c :: t]
      end
  end.

(** [allowed_file(filename)]. *)
Definition allowed_file (filename : str) : bool :=
  existsb is_dot filename &&
  bool_decide (py_lower (nth 1 (rsplit_dot filename) []) ∈ ALLOWED_EXTENSIONS).

End server.

(** What is left of [s] after the longest [\d+\.\d+]. *)
Definition decimal_end (s : str) : option str :=
  match s with
  | c :: s' =>
      if is_digit c then
        match drop_while is_digit s' with
        | d :: e :: t =>
            if Ascii.eqb "."%char d && is_digit e
            then Some (drop_while is_digit t) else None
        | _ => None
        end
      else None
  | [] => None
  end.

(** * Properties *)

(** ** Attribution: proofs *)

Lemma Qltb_lt (x y : Q) : Qltb x y = true <-> (x < y)%Q.
Proof.
  unfold Qltb. rewrite Qlt_alt. destruct (x ?= y)%Q; split; congruence.
Qed.

Lemma Qltb_ge (x y : Q) : Qltb x y = false <-> (y <= x)%Q.
Proof.
  rewrite <- not_true_iff_false, Qltb_lt. split.
  - apply Qnot_lt_le.
  - apply Qle_not_lt.
Qed.

Lemma find_speaker_loop_flat start end_ d st :
  find_speaker_loop start end_ d st =
  fold_left (fun st (x : str * interval) =>
               find_speaker_step start end_ (fst x) st (snd x))
            (labelled_intervals d) st.
Proof.
  unfold find_speaker_loop, labelled_intervals.
  revert st. induction d as [|[spk segs] d IH]; intros st; [reflexivity|].
  cbn [fold_left flat_map fst snd]. rewrite fold_left_app, IH. f_equal.
  clear IH. revert st. induction segs as [|iv segs IH]; intros st; [reflexivity|].
  cbn. apply IH.
Qed.

Section Scan.
Variables start end_ : Q.

Let step (st : str * Q) (x : str * interval) : str * Q :=
  find_speaker_step start end_ (fst x) st (snd x).
Let ov (x : str * interval) : Q := overlap start end_ (snd x).

(** Intervals that do not beat the running best leave the state alone. *)
Lemma scan_no_better (l : list (str * interval)) (st : str * Q) :
  (forall x, In x l -> (ov x <= snd st)%Q \/ (ov x <= 0)%Q) ->
  fold_left step l st = st.
Proof.
  revert st. induction l as [|x l IH]; intros st H; [reflexivity|].
  cbn [fold_left].
  assert (Hx : step st x = st).
  { subst step. cbn beta. unfold find_speaker_step. fold (ov x).
    destruct (H x (or_introl eq_refl)) as [Hle|Hle];
      apply Qltb_ge in Hle; rewrite Hle; [reflexivity|].
    rewrite andb_false_r. reflexivity. }
  rewrite Hx. apply IH. intros y Hy. apply H. now right.
Qed.


End Scan.



(** ** The matcher: proofs *)

Section MatcherProofs.
Context {Emb : Type}.
Variable cosine : Emb -> Emb -> Q.
Variable emb : Emb.

Let step := identify_step cosine emb.
Let dist (e : str * Emb) : Q := cosine emb (snd e).

(** Entries that are not strictly nearer than the running best leave the
    state alone. *)
Lemma nearest_no_better (l : list (str * Emb)) (st : str * Q) :
  (forall e, In e l -> (snd st <= dist e)%Q) ->
  fold_left step l st = st.
Proof.
  revert st. induction l as [|e l IH]; intros st H; [reflexivity|].
  cbn [fold_left].
  assert (He : step st e = st).
  { subst step. unfold identify_step. cbv zeta. fold (dist e).
    assert (Hle := H e (or_introl eq_refl)). apply Qltb_ge in Hle.
    now rewrite Hle. }
  rewrite He. apply IH. intros y Hy. apply H. now right.
Qed.

(** While every entry read is strictly farther than [d], so is the
    running best. *)
Lemma nearest_above (d : Q) (l : list (str * Emb)) (st : str * Q) :
  (d < snd st)%Q ->
  (forall e, In e l -> (d < dist e)%Q) ->
  (d < snd (fold_left step l st))%Q.
Proof.
  revert st. induction l as [|e l IH]; intros st Hst H; [exact Hst|].
  cbn [fold_left]. apply IH; [|intros y Hy; apply H; now right].
  subst step. unfold identify_step. cbv zeta. fold (dist e).
  destruct (Qltb (dist e) (snd st)); cbn [snd]; [|exact Hst].
  apply H. now left.
Qed.

(** The first entry at the smallest distance wins when that distance is
    below the initial score. *)
Lemma nearest_first_min (pre post : list (str * Emb)) (x : str * Emb) (st : str * Q) :
  (dist x < snd st)%Q ->
  (forall e, In e pre -> (dist x < dist e)%Q) ->
  (forall e, In e post -> (dist x <= dist e)%Q) ->
  fold_left step (pre ++ x :: post) st = (fst x, dist x).
Proof.
  intros Hst Hpre Hpost. rewrite fold_left_app. cbn [fold_left].
  assert (Hlt := nearest_above (dist x) pre st Hst Hpre).
  set (s0 := fold_left step pre st) in *.
  assert (Hx : step s0 x = (fst x, dist x)).
  { clearbody s0. subst step. unfold identify_step. cbv zeta. fold (dist x).
    apply Qltb_lt in Hlt. now rewrite Hlt. }
  rewrite Hx. apply nearest_no_better. intros e He. now apply Hpost.
Qed.

(** The running best never rises. *)
Lemma nearest_le_init (l : list (str * Emb)) (st : str * Q) :
  (snd (fold_left step l st) <= snd st)%Q.
Proof.
  revert st. induction l as [|e l IH]; intros st; [apply Qle_refl|].
  cbn [fold_left]. eapply Qle_trans; [apply IH|].
  subst step. unfold identify_step. cbv zeta. fold (dist e).
  destruct (Qltb (dist e) (snd st)) eqn:E; cbn [snd]; [|apply Qle_refl].
  apply Qlt_le_weak. now apply Qltb_lt.
Qed.

End MatcherProofs.

Lemma THRESHOLD_lt_1 : (THRESHOLD < 1)%Q.
Proof. reflexivity. Qed.

Lemma one_point_zero : (1.0 == 1)%Q.
Proof. reflexivity. Qed.

(** What [identify_embedding] returns when some entry is below 1.0. *)
Lemma identify_embedding_below_1 {Emb : Type} (cosine : Emb -> Emb -> Q)
    (emb : Emb) (pre post : list (str * Emb)) (x : str * Emb) :
  (cosine emb (snd x) < 1)%Q ->
  (forall e, In e pre -> (cosine emb (snd x) < cosine emb (snd e))%Q) ->
  (forall e, In e post -> (cosine emb (snd x) <= cosine emb (snd e))%Q) ->
  identify_embedding cosine (pre ++ x :: post) emb =
    if Qltb THRESHOLD (cosine emb (snd x))
    then (Unknown, cosine emb (snd x))
    else (fst x, cosine emb (snd x)).
Proof.
  intros H1 Hpre Hpost. unfold identify_embedding.
  rewrite (nearest_first_min cosine emb pre post x); [reflexivity | | exact Hpre | exact Hpost].
  cbn [snd]. now rewrite one_point_zero.
Qed.

(** What [identify_embedding] returns when no entry is below 1.0. *)
Lemma identify_embedding_none_below_1 {Emb : Type} (cosine : Emb -> Emb -> Q)
    (emb : Emb) (db : list (str * Emb)) :
  (forall e, In e db -> (1 <= cosine emb (snd e))%Q) ->
  identify_embedding cosine db emb = (Unknown, 1.0%Q).
Proof.
  intros H. unfold identify_embedding.
  rewrite nearest_no_better; [reflexivity|]. intros e He.
  cbn [snd]. rewrite one_point_zero. now apply H.
Qed.

(** C2, as stated, fails: against one enrolled speaker at cosine
    distance 2 from the query, the distance [identify_speaker] reports
    is 1.0, the initial value of [best_score], not the minimum over the
    enrollment. *)
Lemma identify_distance_not_minimum :
  db_opposite <> [] /\
  (forall e, In e db_opposite -> (cosine_q query_e1 (snd e) == 2)%Q) /\
  identify_embedding cosine_q db_opposite query_e1 = (Unknown, 1.0%Q) /\
  ~ (snd (identify_embedding cosine_q db_opposite query_e1) == 2)%Q.
Proof.
  repeat split.
  - discriminate.
  - intros e [<-|[]]. reflexivity.
  - discriminate.
Qed.

(** C2, amended.  Only entries at cosine distance strictly below 1.0
    compete.  When the first entry at the minimum distance [d] of the
    enrollment has [d < 1.0], [identify_speaker] returns [("Unknown", d)]
    if [d] exceeds the threshold and that entry's name with [d]
    otherwise; when no entry is below 1.0, the distance reported is 1.0,
    whatever the minimum is. *)
Theorem identify_embedding_nearest :
  forall (Emb : Type) (cosine : Emb -> Emb -> Q) (emb : Emb) (db : list (str * Emb)),
    (forall pre x post,
       db = pre ++ x :: post ->
       (cosine emb (snd x) < 1)%Q ->
       (forall e, In e pre -> (cosine emb (snd x) < cosine emb (snd e))%Q) ->
       (forall e, In e post -> (cosine emb (snd x) <= cosine emb (snd e))%Q) ->
       ((THRESHOLD < cosine emb (snd x))%Q ->
        identify_embedding cosine db emb = (Unknown, cosine emb (snd x))) /\
       ((cosine emb (snd x) <= THRESHOLD)%Q ->
        identify_embedding cosine db emb = (fst x, cosine emb (snd x)))) /\
    ((forall e, In e db -> (1 <= cosine emb (snd e))%Q) ->
     (snd (identify_embedding cosine db emb) == 1)%Q).
Proof.
  intros Emb cosine emb db. split.
  - intros pre x post -> H1 Hpre Hpost.
    rewrite (identify_embedding_below_1 cosine emb pre post x H1 Hpre Hpost).
    split; intros H.
    + apply Qltb_lt in H. now rewrite H.
    + apply Qltb_ge in H. now rewrite H.
  - intros H. now rewrite identify_embedding_none_below_1.
Qed.

Lemma identify_embedding_nearest_witness :
  identify_embedding cosine_q db_tie query_e1 = (Alice, cosine_q query_e1 [3; 4; 0; 0]%Q).
Proof.
  destruct (identify_embedding_nearest (list Q) cosine_q query_e1 db_tie) as [H _].
  apply (H [(Bob, [0; 1; 0; 0]%Q)] (Alice, [3; 4; 0; 0]%Q) [(s2l "Carol", [3; 0; 4; 0]%Q)]).
  - reflexivity.
  - reflexivity.
  - intros e [<-|[]]. reflexivity.
  - intros e [<-|[]]. discriminate.
  - discriminate.
Defined.

(** C5, as stated, fails: a query whose nearest reference is at cosine
    distance exactly the threshold is accepted, not rejected. *)
Lemma identify_accepts_at_threshold :
  (cosine_q query_e1 [3; 9; 3; 1]%Q == THRESHOLD)%Q /\
  identify_embedding cosine_q db_boundary query_e1 = (Alice, 0.7%Q) /\
  fst (identify_embedding cosine_q db_boundary query_e1) <> Unknown.
Proof.
  repeat split. discriminate.
Qed.

(** C5, amended.  The test is [best_score > THRESHOLD]: a query whose
    nearest reference is at distance exactly the threshold is accepted
    and gets the nearest entry's name, as does one at the threshold
    minus some [eps > 0]; a query whose nearest reference is strictly
    beyond the threshold gets ["Unknown"]. *)
Theorem identify_threshold_boundary :
  forall (Emb : Type) (cosine : Emb -> Emb -> Q) (emb : Emb)
         (pre post : list (str * Emb)) (x : str * Emb),
    (forall e, In e pre -> (cosine emb (snd x) < cosine emb (snd e))%Q) ->
    (forall e, In e post -> (cosine emb (snd x) <= cosine emb (snd e))%Q) ->
    ((cosine emb (snd x) == THRESHOLD)%Q ->
     fst (identify_embedding cosine (pre ++ x :: post) emb) = fst x) /\
    (forall eps, (0 < eps)%Q -> (cosine emb (snd x) == THRESHOLD - eps)%Q ->
     fst (identify_embedding cosine (pre ++ x :: post) emb) = fst x) /\
    ((THRESHOLD < cosine emb (snd x))%Q ->
     fst (identify_embedding cosine (pre ++ x :: post) emb) = Unknown).
Proof.
  intros Emb cosine emb pre post x Hpre Hpost.
  assert (Hacc : (cosine emb (snd x) <= THRESHOLD)%Q ->
                 fst (identify_embedding cosine (pre ++ x :: post) emb) = fst x).
  { intros Hle.
    assert (H1 : (cosine emb (snd x) < 1)%Q)
      by (eapply Qle_lt_trans; [exact Hle | exact THRESHOLD_lt_1]).
    rewrite (identify_embedding_below_1 cosine emb pre post x H1 Hpre Hpost).
    apply Qltb_ge in Hle. now rewrite Hle. }
  split; [|split].
  - intros Heq. apply Hacc. rewrite Heq. apply Qle_refl.
  - intros eps Heps Heq. apply Hacc. rewrite Heq.
    apply Qlt_le_weak, Qlt_minus_iff.
    assert (E : (THRESHOLD + - (THRESHOLD - eps) == eps)%Q) by ring.
    now rewrite E.
  - intros Hgt. destruct (Qlt_le_dec (cosine emb (snd x)) 1) as [H1|H1].
    + rewrite (identify_embedding_below_1 cosine emb pre post x H1 Hpre Hpost).
      apply Qltb_lt in Hgt. now rewrite Hgt.
    + rewrite identify_embedding_none_below_1; [reflexivity|].
      intros e He. apply in_app_or in He. destruct He as [He|[<-|He]].
      * apply Qlt_le_weak. eapply Qle_lt_trans; [exact H1 | now apply Hpre].
      * exact H1.
      * eapply Qle_trans; [exact H1 | now apply Hpost].
Qed.

Lemma identify_threshold_boundary_witness :
  fst (identify_embedding cosine_q db_boundary query_e1) = Alice.
Proof.
  apply (identify_threshold_boundary (list Q) cosine_q query_e1 [] [] (Alice, [3; 9; 3; 1]%Q)).
  - intros e [].
  - intros e [].
  - reflexivity.
Defined.

(** C10. The score [identify_speaker] returns is at most 1.0, and when
    every enrolled speaker is at cosine distance 1.0 or more from the
    query, an empty enrollment included, the result is exactly
    [("Unknown", 1.0)], returned normally. *)
Theorem identify_speaker_score_capped :
  forall (Sample Emb : Type) (encode_batch : list Sample -> outcome Emb)
         (cosine : Emb -> Emb -> Q) (db : list (str * Emb)),
    (forall emb, (snd (identify_embedding cosine db emb) <= 1)%Q) /\
    (forall emb, (forall e, In e db -> (1 <= cosine emb (snd e))%Q) ->
                 identify_embedding cosine db emb = (Unknown, 1.0%Q)) /\
    (forall emb, identify_embedding cosine [] emb = (Unknown, 1.0%Q)) /\
    (forall audio_np emb,
       encode_batch audio_np = Ok emb ->
       (forall e, In e db -> (1 <= cosine emb (snd e))%Q) ->
       identify_speaker encode_batch cosine db audio_np = Ok (Unknown, 1.0%Q)).
Proof.
  intros Sample Emb encode_batch cosine db. split; [|split; [|split]].
  - intros emb. unfold identify_embedding.
    assert (H := nearest_le_init cosine emb db (Unknown, 1.0%Q)). cbn [snd] in H.
    assert (H' : (1.0 <= 1)%Q) by (rewrite one_point_zero; apply Qle_refl).
    destruct (Qltb THRESHOLD _); cbn [snd]; eapply Qle_trans; eauto.
  - intros emb H. now apply identify_embedding_none_below_1.
  - intros emb. reflexivity.
  - intros audio_np emb He H. unfold identify_speaker. rewrite He. cbn.
    now rewrite identify_embedding_none_below_1.
Qed.

Lemma identify_speaker_score_capped_witness :
  identify_speaker embed_clip cosine_q db_opposite query_e1 = Ok (Unknown, 1.0%Q).
Proof.
  destruct (identify_speaker_score_capped Q (list Q) embed_clip cosine_q db_opposite)
    as (_ & _ & _ & H).
  apply (H query_e1 query_e1).
  - reflexivity.
  - intros e [<-|[]]. discriminate.
Defined.

(** ** Enrollment: proofs *)

Lemma total_len_cons {A : Type} (x : list A) (l : list (list A)) :
  total_len (x :: l) = (Z.of_nat (length x) + total_len l)%Z.
Proof. reflexivity. Qed.

Lemma total_len_app {A : Type} (l1 l2 : list (list A)) :
  total_len (l1 ++ l2) = (total_len l1 + total_len l2)%Z.
Proof.
  induction l1 as [|x l1 IH]; [reflexivity|].
  cbn [app]. rewrite !total_len_cons, IH. lia.
Qed.

Lemma total_len_nonneg {A : Type} (l : list (list A)) : (0 <= total_len l)%Z.
Proof.
  induction l as [|x l IH]; [reflexivity|]. rewrite total_len_cons. lia.
Qed.

Lemma total_len_concat {A : Type} (l : list (list A)) :
  Z.of_nat (length (concat l)) = total_len l.
Proof.
  induction l as [|x l IH]; [reflexivity|].
  cbn [concat]. rewrite total_len_cons, length_app. lia.
Qed.

(** Below the cap the loop goes on. *)
Lemma collect_samples_below {A : Type} (audio : list A) (pre rest : list interval)
    (samples : list (list A)) :
  (total_len (samples ++ map (window audio) pre) <= SAMPLE_RATE * 15)%Z ->
  collect_samples audio (pre ++ rest) samples =
  collect_samples audio rest (samples ++ map (window audio) pre).
Proof.
  revert samples. induction pre as [|iv pre IH]; intros samples H.
  - cbn. now rewrite app_nil_r.
  - cbn [app map collect_samples]. cbn [map] in H.
    rewrite total_len_app, total_len_cons in H.
    pose proof (total_len_nonneg (map (window audio) pre)).
    assert (Hle : (total_len (samples ++ [window audio iv]) <= SAMPLE_RATE * 15)%Z).
    { rewrite total_len_app, total_len_cons. change (total_len []) with 0%Z. lia. }
    apply Z.ltb_ge in Hle. rewrite Hle. rewrite IH.
    + now rewrite <- app_assoc.
    + rewrite <- app_assoc. cbn [app]. rewrite total_len_app, total_len_cons. lia.
Qed.




Lemma bind_Ok {A B : Type} (a : A) (k : A -> outcome B) : (Ok a ≫= k) = k a.
Proof. reflexivity. Qed.

Section EnrollmentProofs.
Context {Sample Emb : Type}.
Variable encode_batch : list Sample -> outcome Emb.
Variable cosine : Emb -> Emb -> Q.
Variable SPEAKERS : list (str * Emb).

Let resolve := build_loop encode_batch cosine SPEAKERS.

(** The labels are resolved one after the other. *)
Lemma build_loop_app (audio : list Sample) (l1 l2 : diarization) (m : gmap str str) :
  resolve audio (l1 ++ l2) m = (m' ← resolve audio l1 m; resolve audio l2 m').
Proof.
  subst resolve. revert m. induction l1 as [|[spk times] l1 IH]; intros m; [reflexivity|].
  cbn [app build_loop].
  destruct (label_clip audio times) as [clip|c msg|e]; [|reflexivity..].
  cbn. destruct (identify_speaker encode_batch cosine SPEAKERS clip) as [r|c msg|e];
    [|reflexivity..].
  cbn. apply IH.
Qed.

(** A label whose windows hold no sample has the empty clip. *)
Lemma label_clip_empty (audio : list Sample) (times : list interval) :
  times <> [] ->
  total_len (map (window audio) times) = 0%Z ->
  label_clip audio times = Ok [].
Proof.
  intros Hne H0. unfold label_clip.
  rewrite <- (app_nil_r times) at 1.
  rewrite collect_samples_below by (cbn [app]; rewrite H0; discriminate).
  cbn [collect_samples app]. unfold np_concatenate.
  assert (Hc : concat (map (window audio) times) = []).
  { apply length_zero_iff_nil. pose proof (total_len_concat (map (window audio) times)). lia. }
  rewrite Hc. destruct times; [congruence | reflexivity].
Qed.

End EnrollmentProofs.

(** C6, as stated, fails.  With a label whose only interval has no
    duration, an embedder that refuses the empty clip ends the whole
    resolution with its exception, and an embedder that accepts it lets
    the label resolve to an enrolled name. *)
Lemma empty_label_not_isolated :
  total_len (map (window audio_4) [(1, 1)%Q]) = 0%Z /\
  build_speaker_name_map embed_clip cosine_q db_boundary audio_4 diar_empty_label
    = Raise (s2l "RuntimeError") /\
  (exists m,
     build_speaker_name_map embed_const cosine_q db_boundary audio_4 diar_empty_label
       = Ok m /\
     m !! SPEAKER_00 = Some Alice) /\
  Alice <> Unknown.
Proof.
  split; [reflexivity|]. split; [reflexivity|]. split; [|discriminate].
  eexists. split; [reflexivity|]. vm_compute. reflexivity.
Qed.

(** C6, amended.  For a label with at least one interval whose windows
    hold no sample, the concatenation succeeds and gives the empty clip.
    Nothing tests for it: the empty clip goes to [identify_speaker] like
    any other, the label gets the name [identify_speaker] returns for
    it, and an exception of the embedder on the empty clip ends the
    resolution of all labels. *)
Theorem empty_clip_not_guarded :
  forall (Sample Emb : Type) (encode_batch : list Sample -> outcome Emb)
         (cosine : Emb -> Emb -> Q) (SPEAKERS : list (str * Emb))
         (audio : list Sample) (spk : str) (times : list interval),
    times <> [] ->
    total_len (map (window audio) times) = 0%Z ->
    label_clip audio times = Ok [] /\
    (forall rest m,
       build_loop encode_batch cosine SPEAKERS audio ((spk, times) :: rest) m =
       (r ← identify_speaker encode_batch cosine SPEAKERS [];
        build_loop encode_batch cosine SPEAKERS audio rest (<[spk := fst r]> m))) /\
    (forall emb rest m,
       encode_batch [] = Ok emb ->
       build_loop encode_batch cosine SPEAKERS audio ((spk, times) :: rest) m =
       build_loop encode_batch cosine SPEAKERS audio rest
         (<[spk := fst (identify_embedding cosine SPEAKERS emb)]> m)) /\
    (forall e before rest,
       encode_batch [] = Raise e ->
       aborts (build_speaker_name_map encode_batch cosine SPEAKERS audio
                 (before ++ (spk, times) :: rest))).
Proof.
  intros Sample Emb encode_batch cosine SPEAKERS audio spk times Hne H0.
  assert (Hclip := label_clip_empty audio times Hne H0).
  assert (Hstep : forall rest m,
    build_loop encode_batch cosine SPEAKERS audio ((spk, times) :: rest) m =
    (r ← identify_speaker encode_batch cosine SPEAKERS [];
     build_loop encode_batch cosine SPEAKERS audio rest (<[spk := fst r]> m))).
  { intros rest m. cbn [build_loop]. rewrite Hclip. reflexivity. }
  split; [exact Hclip|]. split; [exact Hstep|]. split.
  - intros emb rest m He. rewrite Hstep. unfold identify_speaker. rewrite He. reflexivity.
  - intros e before rest He. unfold build_speaker_name_map.
    rewrite build_loop_app.
    destruct (build_loop encode_batch cosine SPEAKERS audio before ∅) as [m'|c msg|e'];
      [|exact I..].
    rewrite bind_Ok, Hstep. unfold identify_speaker. rewrite He. exact I.
Qed.

Lemma empty_clip_not_guarded_witness :
  label_clip audio_4 [(1, 1)%Q] = Ok [].
Proof.
  apply (empty_clip_not_guarded Q (list Q) embed_clip cosine_q db_boundary
           audio_4 SPEAKER_00 [(1, 1)%Q]).
  - discriminate.
  - reflexivity.
Defined.

(** ** Fusion: proofs *)

Lemma fuse_fold (diar : diarization) (m : gmap str str)
    (transcript : list utterance) (lines : list str) :
  fold_left (fun lines t => lines ++ [fused_line diar m t]) transcript lines =
  lines ++ map (fused_line diar m) transcript.
Proof.
  revert lines. induction transcript as [|t l IH]; intros lines.
  - cbn. now rewrite app_nil_r.
  - cbn [fold_left map]. rewrite IH. now rewrite <- app_assoc.
Qed.

Lemma round_half_even_near (x : Q) :
  (Qabs (x - inject_Z (round_half_even x)) <= 1 # 2)%Q.
Proof.
  destruct x as [n d]. unfold round_half_even. cbn [Qnum Qden].
  pose proof (Z.div_mod n (Z.pos d) ltac:(lia)) as Hdm.
  pose proof (Z.mod_pos_bound n (Z.pos d) ltac:(lia)) as Hb.
  set (fl := (n / Z.pos d)%Z) in *. set (r := (n mod Z.pos d)%Z) in *.
  clearbody fl r.
  assert (Hk : forall k : Z, (2 * Z.abs (n - k * Z.pos d) <= Z.pos d)%Z ->
                 (Qabs ((n # d) - inject_Z k) <= 1 # 2)%Q).
  { intros k Hk. unfold Qle, Qabs, Qminus, Qplus, Qopp, inject_Z. cbn [Qnum Qden].
    rewrite Pos.mul_1_r.
    replace (n * 1 + - k * Z.pos d)%Z with (n - k * Z.pos d)%Z by ring.
    rewrite (Z.mul_comm _ 2), Z.mul_1_l. exact Hk. }
  destruct (2 * r ?= Z.pos d)%Z eqn:E.
  - apply Z.compare_eq in E. destruct (Z.even fl); apply Hk; lia.
  - rewrite Z.compare_lt_iff in E. apply Hk. lia.
  - rewrite Z.compare_gt_iff in E. apply Hk. lia.
Qed.

Lemma round_half_even_nonneg (x : Q) : (0 <= x)%Q -> (0 <= round_half_even x)%Z.
Proof.
  destruct x as [n d]. unfold Qle, round_half_even. cbn [Qnum Qden]. intros H.
  assert (0 <= n)%Z by lia.
  assert (0 <= n / Z.pos d)%Z by (apply Z.div_pos; lia).
  destruct (2 * (n mod Z.pos d) ?= Z.pos d)%Z; [destruct (Z.even _)|..]; lia.
Qed.

Lemma hundredths_nonneg (x : Q) : (0 <= hundredths x)%Z.
Proof.
  apply round_half_even_nonneg.
  apply Qmult_le_0_compat; [apply Qabs_nonneg | discriminate].
Qed.

Lemma digit_char_digit (d : Z) : (0 <= d < 10)%Z -> is_digit (digit_char d) = true.
Proof.
  intros H. unfold is_digit, digit_char.
  rewrite N_ascii_embedding by lia.
  apply andb_true_iff. split; apply N.leb_le; lia.
Qed.

(** C3. The fused lines are as many as the utterances and in their
    order: line [i] is [[<start>–<end>] <name>: <text>] for utterance
    [i], where the name is [speaker_name_map.get(label, label)] for the
    label [find_speaker] attributes, the label itself when the map has no
    entry for it.  [start] and [end] are printed as the nearest number
    of hundredths: a sign, the integer part, a point and two digits. *)
Theorem fuse_one_line_per_utterance :
  forall (transcript : list utterance) (diar : diarization) (m : gmap str str),
    length (fuse transcript diar m) = length transcript /\
    (forall (i : nat) (t : utterance),
       transcript !! i = Some t ->
       let label := find_speaker (u_start t) (u_end t) diar in
       let name := match m !! label with Some n => n | None => label end in
       fuse transcript diar m !! i =
       Some (s2l "[" ++ format_2f (u_start t) ++ en_dash ++ format_2f (u_end t) ++
             s2l "] " ++ name ++ s2l ": " ++ u_text t)) /\
    (forall x : Q,
       let k := hundredths x in
       (0 <= k)%Z /\
       (Qabs (Qabs x * 100 - inject_Z k) <= 1 # 2)%Q /\
       is_digit (digit_char ((k / 10) mod 10)) = true /\
       is_digit (digit_char (k mod 10)) = true /\
       format_2f x =
         (if Qltb x 0 then s2l "-" else []) ++ s2l (pretty (k / 100)%Z) ++
         s2l "." ++ [digit_char ((k / 10) mod 10); digit_char (k mod 10)]).
Proof.
  intros transcript diar m.
  assert (E : fuse transcript diar m = map (fused_line diar m) transcript).
  { unfold fuse. now rewrite fuse_fold. }
  split; [|split].
  - rewrite E. apply length_map.
  - intros i t Hi label name. rewrite E, list_lookup_fmap, Hi. reflexivity.
  - intros x k. split; [apply hundredths_nonneg|].
    split; [apply round_half_even_near|].
    split; [apply digit_char_digit, Z.mod_pos_bound; lia|].
    split; [apply digit_char_digit, Z.mod_pos_bound; lia|].
    reflexivity.
Qed.

Lemma fuse_one_line_per_utterance_witness :
  fuse transcript_2 diar_AB names_S1 !! 1%nat = Some (s2l "[20.00–21.50] UNKNOWN: bye").
Proof.
  destruct (fuse_one_line_per_utterance transcript_2 diar_AB names_S1) as (_ & H & _).
  apply (H 1%nat (Utterance 20 21.5 (s2l "bye"))). reflexivity.
Defined.

(** ** Characters *)

#[local] Arguments Ascii.eqb : simpl never.

(** Decide the comparisons between two given characters. *)
Ltac eqb_consts :=
  repeat match goal with
  | |- context [Ascii.eqb ?a ?b] =>
      let v := eval vm_compute in (Ascii.eqb a b) in
      match v with
      | true => change (Ascii.eqb a b) with true
      | false => change (Ascii.eqb a b) with false
      end
  end;
  cbv iota.

Ltac ascii_cases c :=
  destruct c as [[] [] [] [] [] [] [] []]; try reflexivity; try discriminate.

Lemma space_not_digit c : is_space c = true -> is_digit c = false.
Proof. ascii_cases c. Qed.

Lemma space_not_bracket c : is_space c = true -> Ascii.eqb "]"%char c = false.
Proof. ascii_cases c. Qed.

Lemma space_not_arrow c :
  is_space c = true -> Ascii.eqb "226"%char c = false /\ Ascii.eqb "-"%char c = false.
Proof. ascii_cases c; intros _; split; reflexivity. Qed.

Lemma digit_not_space c : is_digit c = true -> is_space c = false.
Proof. ascii_cases c. Qed.

Lemma digit_not_dot c : is_digit c = true -> Ascii.eqb "."%char c = false.
Proof. ascii_cases c. Qed.

Lemma digit_not_bracket c : is_digit c = true -> Ascii.eqb "]"%char c = false.
Proof. ascii_cases c. Qed.

Lemma digit_not_arrow c :
  is_digit c = true -> Ascii.eqb "226"%char c = false /\ Ascii.eqb "-"%char c = false.
Proof. ascii_cases c; intros _; split; reflexivity. Qed.

Lemma space_not_newline_free c : not_newline c = false -> is_space c = true.
Proof. ascii_cases c. Qed.

(** ** Lists and [drop_while] *)

Lemma take_drop_while {A : Type} (p : A -> bool) (l : list A) :
  take_while p l ++ drop_while p l = l.
Proof.
  induction l as [|x l IH]; [reflexivity|]. cbn.
  destruct (p x); [cbn; now rewrite IH | reflexivity].
Qed.

Lemma take_while_all {A : Type} (p : A -> bool) (l : list A) :
  forallb p (take_while p l) = true.
Proof.
  induction l as [|x l IH]; [reflexivity|]. cbn.
  destruct (p x) eqn:E; [cbn; now rewrite E | reflexivity].
Qed.

Lemma drop_while_head {A : Type} (p : A -> bool) (l : list A) (x : A) (t : list A) :
  drop_while p l = x :: t -> p x = false.
Proof.
  induction l as [|y l IH]; [discriminate|]. cbn.
  destruct (p y) eqn:E; [exact IH|]. intros [= <- <-]. exact E.
Qed.

Lemma drop_while_idem {A : Type} (p : A -> bool) (l : list A) :
  drop_while p (drop_while p l) = drop_while p l.
Proof.
  destruct (drop_while p l) as [|x t] eqn:E; [reflexivity|].
  apply drop_while_head in E. cbn. now rewrite E.
Qed.

Lemma drop_while_app {A : Type} (p : A -> bool) (l r : list A) :
  forallb p l = true -> drop_while p (l ++ r) = drop_while p r.
Proof.
  induction l as [|x l IH]; [reflexivity|]. cbn.
  intros H. apply andb_true_iff in H as [Hx Hl]. rewrite Hx. now apply IH.
Qed.

Lemma drop_while_stop {A : Type} (p : A -> bool) (x : A) (t : list A) :
  p x = false -> drop_while p (x :: t) = x :: t.
Proof. intros H. cbn. now rewrite H. Qed.

Lemma drop_while_suffix {A : Type} (p : A -> bool) (l : list A) :
  drop_while p l `suffix_of` l.
Proof.
  induction l as [|x l IH]; [reflexivity|]. cbn.
  destruct (p x); [now apply suffix_cons_r | reflexivity].
Qed.

Lemma take_app_length_rest {A : Type} (l r : list A) :
  take (length (l ++ r) - length r) (l ++ r) = l.
Proof.
  rewrite length_app. replace (length l + length r - length r)%nat with (length l) by lia.
  apply take_app_length.
Qed.

(** ** The backtracking matcher against the deterministic reading *)

Section StarFacts.
Context {R : Type}.
Implicit Types (k : @matcher R) (p : ascii -> bool).

(** A match after the longest run is the match of [c*]. *)
Lemma star_first p k s r :
  k (drop_while p s) = Some r -> star p k s = Some r.
Proof.
  induction s as [|c s IH]; [trivial|]. cbn.
  destruct (p c); [|trivial]. intros H. now rewrite (IH H).
Qed.

(** When giving back characters of the run cannot help, [c*] takes the
    longest run. *)
Lemma star_fallback p k s :
  (forall c t, p c = true -> k (c :: t) = None \/ k (c :: t) = k (drop_while p t)) ->
  star p k s = k (drop_while p s).
Proof.
  intros H. induction s as [|c s IH]; [reflexivity|]. cbn.
  destruct (p c) eqn:E; [|reflexivity]. rewrite IH.
  destruct (k (drop_while p s)) eqn:Ek; [reflexivity|].
  destruct (H c s E) as [Hn|Hn]; congruence.
Qed.

Lemma star_longest p k s :
  (forall c t, p c = true -> k (c :: t) = None) ->
  star p k s = k (drop_while p s).
Proof. intros H. apply star_fallback. intros c t Hc. left. now apply H. Qed.

Lemma word_strip_prefix (w : str) k s :
  word w k s = match strip_prefix w s with Some r => k r | None => None end.
Proof.
  unfold word. revert s. induction w as [|c w IH]; intros s; [reflexivity|].
  cbn [fold_right strip_prefix]. unfold lit at 1. destruct s as [|c' s]; [reflexivity|].
  destruct (Ascii.eqb c c'); [apply IH | reflexivity].
Qed.

(** [\d+\.?\d*] before a continuation that accepts neither a digit nor a
    point first. *)
Lemma re_number_longest k s :
  (forall c t, is_digit c = true \/ c = "."%char -> k (c :: t) = None) ->
  re_number k s = match number_end s with Some r => k r | None => None end.
Proof.
  intros Hk. unfold re_number, plus, number_end.
  destruct s as [|c s]; [reflexivity|]. destruct (is_digit c); [|reflexivity].
  assert (HK : forall s, star is_digit k s = k (drop_while is_digit s)).
  { intros s0. apply star_longest. intros d t Hd. apply Hk. now left. }
  set (O := opt (lit "."%char) (star is_digit k)).
  assert (HO : forall s, O s = match s with
                               | d :: t => if Ascii.eqb "."%char d
                                           then k (drop_while is_digit t)
                                           else k (drop_while is_digit s)
                               | [] => k []
                               end).
  { intros s0. subst O. unfold opt, lit. destruct s0 as [|d t]; [reflexivity|].
    destruct (Ascii.eqb "."%char d) eqn:Ed; [|apply HK].
    rewrite !HK. destruct (k (drop_while is_digit t)); [reflexivity|].
    apply Ascii.eqb_eq in Ed. subst d. cbn. apply Hk. now right. }
  rewrite star_fallback.
  - rewrite HO. destruct (drop_while is_digit s) as [|d t] eqn:Es; [reflexivity|].
    destruct (Ascii.eqb "."%char d); [reflexivity|].
    rewrite <- Es. now rewrite drop_while_idem.
  - intros d t Hd. rewrite (HO (d :: t)), (digit_not_dot d Hd).
    cbn [drop_while]. rewrite Hd. rewrite HO.
    destruct (drop_while is_digit t) as [|e u] eqn:Es; [now right|].
    destruct (Ascii.eqb "."%char e) eqn:Ee.
    + left. apply Ascii.eqb_eq in Ee. subst e. apply Hk. now right.
    + right. rewrite <- Es. now rewrite drop_while_idem.
Qed.

(** The arrows before a continuation that does not accept [>] first. *)
Lemma re_arrow_first k s :
  (forall t, k (">"%char :: t) = None) ->
  re_arrow k s = match arrow_end s with Some r => k r | None => None end.
Proof.
  intros Hk. unfold re_arrow, alt, arrow_end. rewrite !word_strip_prefix.
  unfold arrow_right, arrow_ascii, en_dash, hyphen. cbn [s2l list_ascii_of_string].
  destruct s as [|c1 s]; [reflexivity|]. cbn [strip_prefix].
  destruct (Ascii.eqb "226"%char c1) eqn:E1.
  - apply Ascii.eqb_eq in E1. subst c1. eqb_consts.
    destruct s as [|c2 s]; [reflexivity|].
    destruct (Ascii.eqb "134"%char c2) eqn:E2.
    + apply Ascii.eqb_eq in E2. subst c2. eqb_consts.
      destruct s as [|c3 s]; [reflexivity|].
      destruct (Ascii.eqb "146"%char c3); [|reflexivity].
      destruct (k s); reflexivity.
    + destruct (Ascii.eqb "128"%char c2); [|reflexivity].
      destruct s as [|c3 s]; [reflexivity|].
      destruct (Ascii.eqb "147"%char c3); [|reflexivity].
      destruct (k s); reflexivity.
  - destruct (Ascii.eqb "-"%char c1) eqn:E3; [|reflexivity].
    destruct s as [|c2 s]; [destruct (k []); reflexivity|].
    destruct (Ascii.eqb ">"%char c2) eqn:E4.
    + apply Ascii.eqb_eq in E4. subst c2.
      destruct (k s); [reflexivity|]. apply Hk.
    + destruct (k (c2 :: s)); reflexivity.
Qed.

Lemma re_arrow_head k c t :
  Ascii.eqb "226"%char c = false -> Ascii.eqb "-"%char c = false ->
  re_arrow k (c :: t) = None.
Proof.
  intros H1 H2. unfold re_arrow, alt, word, arrow_right, arrow_ascii, en_dash, hyphen.
  cbn [s2l list_ascii_of_string fold_right lit]. now rewrite H1, H2.
Qed.

End StarFacts.

(** ** [strip] *)

Lemma drop_while_nil {A : Type} (p : A -> bool) (l : list A) :
  drop_while p l = [] <-> forallb p l = true.
Proof.
  induction l as [|x l IH]; [easy|]. cbn.
  destruct (p x); [exact IH | easy].
Qed.

Lemma drop_while_app_stop {A : Type} (p : A -> bool) (l : list A) (y : A) (r : list A) :
  p y = false ->
  drop_while p (l ++ y :: r) = drop_while p l ++ y :: r.
Proof.
  intros Hy. induction l as [|x l IH]; cbn.
  - now rewrite Hy.
  - destruct (p x); [exact IH | reflexivity].
Qed.

Lemma forallb_rev {A : Type} (p : A -> bool) (l : list A) :
  forallb p (rev l) = forallb p l.
Proof.
  induction l as [|x l IH]; [reflexivity|].
  cbn [rev]. rewrite forallb_app, IH. cbn. now rewrite andb_true_r, andb_comm.
Qed.

(** What [rstrip] removes is a run of blanks at the end. *)
Lemma py_rstrip_split (s : str) :
  exists w, s = py_rstrip s ++ w /\ forallb is_space w = true.
Proof.
  unfold py_rstrip. exists (rev (take_while is_space (rev s))). split.
  - rewrite <- rev_app_distr, take_drop_while. now rewrite rev_involutive.
  - rewrite forallb_rev. apply take_while_all.
Qed.

(** [rstrip] stops at a character that is not a blank. *)
Lemma py_rstrip_app (a : str) (y : ascii) (r : str) :
  is_space y = false ->
  py_rstrip (a ++ y :: r) = a ++ y :: py_rstrip r.
Proof.
  intros Hy. unfold py_rstrip.
  rewrite rev_app_distr. cbn [rev]. rewrite <- app_assoc. cbn [app].
  rewrite drop_while_app_stop by exact Hy.
  rewrite rev_app_distr. cbn [rev]. rewrite rev_involutive, <- app_assoc.
  reflexivity.
Qed.

(** A stripped string does not end with blanks. *)
Lemma py_strip_no_blank_suffix (l t : str) :
  t `suffix_of` py_strip l -> forallb is_space t = true -> t = [].
Proof.
  intros [u Hu] Ht. unfold py_strip, py_rstrip in Hu.
  destruct (drop_while is_space (rev (py_lstrip l))) as [|x m] eqn:Em.
  - cbn in Hu. symmetry in Hu. apply app_eq_nil in Hu. tauto.
  - apply drop_while_head in Em.
    destruct t as [|c t'] using rev_ind; [reflexivity|]. clear IHt'.
    cbn [rev] in Hu. rewrite app_assoc in Hu. apply app_inj_tail in Hu as [_ ->].
    rewrite forallb_app in Ht. cbn in Ht. rewrite Em in Ht.
    rewrite andb_false_r in Ht. discriminate.
Qed.


(** ** Timestamps *)

(** The text [number_end] reads is a timestamp of its own. *)
Lemma number_end_split (s r : str) :
  number_end s = Some r ->
  exists n, s = n ++ r /\ number_end n = Some [] /\
            take (length s - length r) s = n.
Proof.
  unfold number_end. destruct s as [|c s]; [discriminate|].
  destruct (is_digit c) eqn:Ec; [|discriminate].
  pose proof (take_drop_while is_digit s) as Hs.
  pose proof (take_while_all is_digit s) as Ha.
  set (d1 := take_while is_digit s) in *.
  destruct (drop_while is_digit s) as [|d t] eqn:Es.
  - intros [= <-]. exists (c :: s). rewrite app_nil_r. split; [reflexivity|]. split.
    + cbn. rewrite Ec, Es. reflexivity.
    + pose proof (take_app_length_rest (c :: s) []) as H.
      now rewrite app_nil_r in H.
  - destruct (Ascii.eqb "."%char d) eqn:Ed.
    + intros [= <-].
      pose proof (take_drop_while is_digit t) as Ht.
      pose proof (take_while_all is_digit t) as Hta.
      set (d2 := take_while is_digit t) in *.
      exists (c :: d1 ++ d :: d2).
      assert (E : c :: s = (c :: d1 ++ d :: d2) ++ drop_while is_digit t).
      { cbn [app]. rewrite <- app_assoc. cbn [app]. now rewrite Ht, Hs. }
      split; [exact E|]. split.
      * cbn. rewrite Ec. rewrite (drop_while_app _ d1) by exact Ha.
        rewrite drop_while_stop by (apply Ascii.eqb_eq in Ed; now subst d).
        rewrite Ed. f_equal. apply drop_while_nil. exact Hta.
      * rewrite E. apply take_app_length_rest.
    + intros [= <-]. exists (c :: d1).
      assert (E : c :: s = (c :: d1) ++ d :: t) by (cbn [app]; now rewrite Hs).
      split; [exact E|]. split.
      * cbn. rewrite Ec. replace (drop_while is_digit d1) with (@nil ascii)
          by (symmetry; now apply drop_while_nil).
        reflexivity.
      * rewrite E. apply take_app_length_rest.
Qed.

(** A timestamp followed by something that starts with neither a digit
    nor a point is read whole. *)
Lemma number_end_app (n r : str) :
  number_end n = Some [] ->
  (forall c t, r = c :: t -> is_digit c = false /\ Ascii.eqb "."%char c = false) ->
  number_end (n ++ r) = Some r.
Proof.
  unfold number_end. destruct n as [|c n]; [discriminate|]. cbn [app].
  destruct (is_digit c); [|discriminate]. intros Hn Hr.
  assert (Hdr : drop_while is_digit r = r).
  { destruct r as [|x t]; [reflexivity|].
    destruct (Hr x t eq_refl) as [Hx _]. now apply drop_while_stop. }
  pose proof (take_drop_while is_digit n) as Hs.
  pose proof (take_while_all is_digit n) as Ha.
  destruct (drop_while is_digit n) as [|d t] eqn:Es.
  - rewrite app_nil_r in Hs. rewrite <- Hs.
    rewrite drop_while_app by exact Ha. rewrite Hdr.
    destruct r as [|x u]; [reflexivity|].
    destruct (Hr x u eq_refl) as [_ Hx]. now rewrite Hx.
  - destruct (Ascii.eqb "."%char d) eqn:Ed; [|discriminate].
    injection Hn as Hn. rewrite <- Hs, <- app_assoc. cbn [app].
    rewrite drop_while_app by exact Ha.
    rewrite drop_while_stop by (apply Ascii.eqb_eq in Ed; now subst d).
    rewrite Ed. f_equal.
    rewrite drop_while_app by (now apply drop_while_nil). exact Hdr.
Qed.

Lemma number_end_suffix (s r : str) : number_end s = Some r -> r `suffix_of` s.
Proof.
  intros H. destruct (number_end_split s r H) as (n & -> & _). now apply suffix_app_r.
Qed.

(** The pattern [\d+\.?\d*] matches a whole string exactly when
    [number_end] reads all of it. *)
Lemma full_match_number (n : str) :
  full_match re_number n = true <-> number_end n = Some [].
Proof.
  unfold full_match. rewrite re_number_longest by reflexivity.
  destruct (number_end n) as [[|c r]|]; split; intros H; try reflexivity;
    discriminate.
Qed.


(** ** The pattern of [load_transcript] *)

Lemma group_number_longest {R : Type} (k : str -> @matcher R) (s : str) :
  (forall g c t, is_digit c = true \/ c = "."%char -> k g (c :: t) = None) ->
  group re_number k s =
  match number_end s with
  | Some r => k (take (length s - length r) s) r
  | None => None
  end.
Proof.
  intros H. unfold group. rewrite re_number_longest; [reflexivity|].
  intros c t Hc. now apply H.
Qed.

Lemma group_number_space {R : Type} (k : str -> @matcher R) (c : ascii) (t : str) :
  is_digit c = false -> group re_number k (c :: t) = None.
Proof. intros H. unfold group, re_number, plus. now rewrite H. Qed.

Lemma digit_or_dot (c : ascii) :
  is_digit c = true \/ c = "."%char ->
  is_space c = false /\ Ascii.eqb "]"%char c = false /\
  Ascii.eqb "226"%char c = false /\ Ascii.eqb "-"%char c = false.
Proof.
  intros [H| ->]; [|repeat split; reflexivity].
  destruct (digit_not_arrow c H). auto using digit_not_space, digit_not_bracket.
Qed.

(** The pattern up to the arrow takes the longest runs. *)
Lemma pattern_match_head (s : str) :
  pattern_match s =
  match s with
  | c :: s1 =>
      if Ascii.eqb "["%char c then
        match number_end (drop_while is_space s1) with
        | Some r1 =>
            match arrow_end (drop_while is_space r1) with
            | Some r2 =>
                after_arrow (take (length (drop_while is_space s1) - length r1)
                                  (drop_while is_space s1)) r2
            | None => None
            end
        | None => None
        end
      else None
  | [] => None
  end.
Proof.
  change (pattern_match s) with
    (lit "["%char (star is_space (group re_number (fun g1 =>
       star is_space (re_arrow (after_arrow g1))))) s).
  unfold lit at 1. destruct s as [|c s1]; [reflexivity|].
  destruct (Ascii.eqb "["%char c); [|reflexivity].
  rewrite star_longest
    by (intros x t Hx; apply group_number_space; now apply space_not_digit).
  rewrite group_number_longest.
  - destruct (number_end (drop_while is_space s1)) as [r1|]; [|reflexivity].
    rewrite star_longest
      by (intros x t Hx; destruct (space_not_arrow x Hx); now apply re_arrow_head).
    apply re_arrow_first. reflexivity.
  - intros g x t Hx. destruct (digit_or_dot x Hx) as (Hs & _ & H1 & H2).
    cbn [star]. rewrite Hs. now apply re_arrow_head.
Qed.

(** The pattern from the arrow to the closing bracket takes the longest
    runs. *)
Lemma after_arrow_longest (g1 s : str) :
  after_arrow g1 s =
  match number_end (drop_while is_space s) with
  | Some r3 =>
      match drop_while is_space r3 with
      | c :: r4 =>
          if Ascii.eqb "]"%char c
          then text_part g1 (take (length (drop_while is_space s) - length r3)
                                  (drop_while is_space s)) r4
          else None
      | [] => None
      end
  | None => None
  end.
Proof.
  unfold after_arrow.
  rewrite star_longest
    by (intros x t Hx; apply group_number_space; now apply space_not_digit).
  rewrite group_number_longest.
  - destruct (number_end (drop_while is_space s)) as [r3|]; [|reflexivity].
    rewrite star_longest
      by (intros x t Hx; unfold lit; now rewrite (space_not_bracket x Hx)).
    unfold lit at 1. reflexivity.
  - intros g x t Hx. destruct (digit_or_dot x Hx) as (Hs & Hb & _).
    cbn [star]. rewrite Hs. unfold lit. now rewrite Hb.
Qed.





(** ** The four arrows *)

Lemma glyph_cases (g : str) :
  In g glyphs ->
  g = arrow_right \/ g = arrow_ascii \/ g = en_dash \/ g = hyphen.
Proof. cbn. intuition. Qed.

(** An arrow ends with a character that is not a blank, and starts with
    one that is neither a blank, a digit nor a point. *)
Lemma glyph_shape (g : str) :
  In g glyphs ->
  (exists g' y, g = g' ++ [y] /\ is_space y = false) /\
  (exists x t, g = x :: t /\ is_space x = false /\ is_digit x = false /\
               Ascii.eqb "."%char x = false).
Proof.
  intros H. apply glyph_cases in H as [-> | [-> | [-> | ->]]]; split.
  - now exists ["226"; "134"]%char, "146"%char.
  - now exists "226"%char, ["134"; "146"]%char.
  - now exists ["-"]%char, ">"%char.
  - now exists "-"%char, [">"]%char.
  - now exists ["226"; "128"]%char, "147"%char.
  - now exists "226"%char, ["128"; "147"]%char.
  - now exists [], "-"%char.
  - now exists "-"%char, [].
Qed.

(** After an arrow and a rest that does not start with [>], the arrow
    is what [arrow_end] reads. *)
Lemma arrow_end_glyph (g rest : str) :
  In g glyphs ->
  (forall t, rest <> ">"%char :: t) ->
  arrow_end (g ++ rest) = Some rest.
Proof.
  intros H Hr. apply glyph_cases in H as [-> | [-> | [-> | ->]]];
    try reflexivity.
  unfold arrow_end, hyphen, arrow_right, arrow_ascii, en_dash.
  cbn [s2l list_ascii_of_string app strip_prefix]. eqb_consts.
  destruct rest as [|c t]; [reflexivity|].
  destruct (Ascii.eqb ">"%char c) eqn:E; [|reflexivity].
  apply Ascii.eqb_eq in E. subst c. now destruct (Hr t).
Qed.

(** A line with an arrow after the first timestamp is matched from the
    arrow on, whichever arrow it is. *)
Lemma pattern_match_variant (lead ws1 n1 ws2 g rest : str) :
  forallb is_space lead = true ->
  forallb is_space ws1 = true ->
  full_match re_number n1 = true ->
  forallb is_space ws2 = true ->
  In g glyphs ->
  (forall t, rest <> ">"%char :: t) ->
  pattern_match (py_strip (lead ++ s2l "[" ++ ws1 ++ n1 ++ ws2 ++ g ++ rest)) =
  after_arrow n1 (py_rstrip rest).
Proof.
  intros Hlead Hws1 Hn1 Hws2 Hg Hrest.
  apply full_match_number in Hn1.
  destruct (glyph_shape g Hg) as [(g' & y & Eg & Hy) (x & gt & Ex & Hxs & Hxd & Hxp)].
  assert (Hrest' : forall t, py_rstrip rest <> ">"%char :: t).
  { intros t Ht. destruct (py_rstrip_split rest) as (w & Hw & _).
    rewrite Ht in Hw. now destruct (Hrest (t ++ w)). }
  assert (Hstrip : py_strip (lead ++ s2l "[" ++ ws1 ++ n1 ++ ws2 ++ g ++ rest)
                   = "["%char :: ws1 ++ n1 ++ ws2 ++ g ++ py_rstrip rest).
  { unfold py_strip, py_lstrip. rewrite drop_while_app by exact Hlead.
    cbn [s2l list_ascii_of_string app]. rewrite drop_while_stop by reflexivity.
    rewrite Eg.
    replace ("["%char :: ws1 ++ n1 ++ ws2 ++ (g' ++ [y]) ++ rest)
      with (("["%char :: ws1 ++ n1 ++ ws2 ++ g') ++ y :: rest)
      by (cbn [app]; now rewrite <- !app_assoc).
    rewrite py_rstrip_app by exact Hy.
    cbn [app]. now rewrite <- !app_assoc. }
  rewrite Hstrip, pattern_match_head. eqb_consts.
  assert (Hn1' : exists d n', n1 = d :: n' /\ is_digit d = true).
  { unfold number_end in Hn1. destruct n1 as [|d n']; [discriminate|].
    destruct (is_digit d) eqn:Ed; [eauto | discriminate]. }
  destruct Hn1' as (d & n' & En1 & Hd).
  rewrite drop_while_app by exact Hws1.
  assert (Hdw : drop_while is_space (n1 ++ ws2 ++ g ++ py_rstrip rest)
                = n1 ++ ws2 ++ g ++ py_rstrip rest).
  { rewrite En1. cbn [app]. apply drop_while_stop. now apply digit_not_space. }
  rewrite !Hdw. clear Hdw.
  rewrite number_end_app.
  - rewrite take_app_length_rest.
    rewrite drop_while_app by exact Hws2.
    rewrite Ex at 1. cbn [app]. rewrite drop_while_stop by exact Hxs.
    change (x :: gt ++ py_rstrip rest) with ((x :: gt) ++ py_rstrip rest).
    rewrite <- Ex, arrow_end_glyph by assumption. reflexivity.
  - exact Hn1.
  - intros c t Hc. destruct ws2 as [|w ws2'].
    + rewrite Ex in Hc. cbn [app] in Hc. injection Hc as <- _. now split.
    + cbn [app] in Hc. injection Hc as <- _.
      cbn in Hws2. apply andb_true_iff in Hws2 as [Hw _].
      split; [now apply space_not_digit|]. revert Hw. clear. ascii_cases w.
Qed.

Lemma load_transcript_loop_ext (lines1 lines2 : list str) :
  Forall2 (fun a b => pattern_match (py_strip a) = pattern_match (py_strip b))
          lines1 lines2 ->
  forall chunks,
    load_transcript_loop lines1 chunks = load_transcript_loop lines2 chunks.
Proof.
  induction 1 as [|a b l1 l2 Hab _ IH]; intros chunks; [reflexivity|].
  cbn [load_transcript_loop]. rewrite Hab.
  destruct (pattern_match (py_strip b)) as [[[g1 g2] g3]|]; [|apply IH].
  destruct (float_of g1) as [q1|c1 m1|e1]; [|reflexivity..].
  destruct (float_of g2) as [q2|c2 m2|e2]; [|reflexivity..].
  cbn. apply IH.
Qed.

(** C8. Two lines that differ only in which of the four arrows stands
    between the two timestamps are matched alike, with the same three
    groups or not at all, and two transcripts that differ only in such
    arrows are parsed to the same result. *)
Theorem arrow_glyphs_equivalent :
  (forall line1 line2 : str,
     glyph_variants line1 line2 ->
     pattern_match (py_strip line1) = pattern_match (py_strip line2)) /\
  (forall lines1 lines2 : list str,
     Forall2 (fun a b => a = b \/ glyph_variants a b) lines1 lines2 ->
     load_transcript lines1 = load_transcript lines2).
Proof.
  assert (Hline : forall line1 line2 : str,
            glyph_variants line1 line2 ->
            pattern_match (py_strip line1) = pattern_match (py_strip line2)).
  { intros line1 line2
      (lead & ws1 & n1 & ws2 & g1 & g2 & rest & Hl & H1 & Hn & H2 & Hg1 & Hg2 & Hr & -> & ->).
    now rewrite !pattern_match_variant. }
  split; [exact Hline|].
  intros lines1 lines2 H. unfold load_transcript.
  rewrite (load_transcript_loop_ext lines1 lines2); [reflexivity|].
  eapply Forall2_impl; [exact H|]. intros a b [->|Hv]; [reflexivity | now apply Hline].
Qed.

Lemma arrow_glyphs_equivalent_witness :
  load_transcript [line_ascii_arrow; s2l "minutes"] =
  load_transcript [line_en_dash; s2l "minutes"].
Proof.
  destruct arrow_glyphs_equivalent as [_ H]. apply H.
  constructor; [right | constructor; [now left | constructor]].
  exists (s2l "  "), [], (s2l "1.5"), (s2l " "), arrow_ascii, en_dash,
         (s2l " 2] hello world" ++ newline).
  repeat split; try reflexivity.
  - cbn. tauto.
  - cbn. tauto.
  - intros t H0. discriminate H0.
Defined.

(** ** The two parsers: when they stop *)


Lemma has_fields_false (line : str) :
  has_fields line = false -> (length (py_split (py_strip line)) <? 8)%nat = true.
Proof. unfold has_fields. now intros H%negb_false_iff. Qed.

Lemma has_fields_true (line : str) :
  has_fields line = true -> (length (py_split (py_strip line)) <? 8)%nat = false.
Proof. unfold has_fields. now intros H%negb_true_iff. Qed.








(** ** The two parsers: what they return *)








(** * Further properties *)

(** ** Attribution *)

Lemma fold_left_invariant {A B : Type} (f : A -> B -> A) (P : A -> Prop) (l : list B) :
  forall a, P a -> (forall a x, In x l -> P a -> P (f a x)) -> P (fold_left f l a).
Proof.
  induction l as [|x l IH]; intros a Ha Hstep; [exact Ha|].
  cbn [fold_left]. apply IH.
  - apply Hstep; [now left | exact Ha].
  - intros a' y Hy. apply Hstep. now right.
Qed.

Lemma py_min_le_l (a b : Q) : (py_min a b <= a)%Q.
Proof.
  unfold py_min. destruct (Qltb b a) eqn:E; [|apply Qle_refl].
  apply Qlt_le_weak. now apply Qltb_lt.
Qed.

Lemma py_max_ge_l (a b : Q) : (a <= py_max a b)%Q.
Proof.
  unfold py_max. destruct (Qltb a b) eqn:E; [|apply Qle_refl].
  apply Qlt_le_weak. now apply Qltb_lt.
Qed.

(** An overlap is never longer than the utterance. *)
Lemma overlap_le_duration (start end_ : Q) (iv : interval) :
  (overlap start end_ iv <= end_ - start)%Q.
Proof.
  unfold overlap, Qminus. apply Qplus_le_compat; [apply py_min_le_l|].
  apply Qopp_le_compat, py_max_ge_l.
Qed.




(** X3. An utterance that does not end after it starts, one of zero
    duration included, goes to ["UNKNOWN"], whatever the diarization
    holds. *)
Theorem find_speaker_empty_utterance :
  forall (start end_ : Q) (d : diarization),
    (end_ <= start)%Q -> find_speaker start end_ d = UNKNOWN.
Proof.
  intros start end_ d Hle. unfold find_speaker.
  rewrite find_speaker_loop_flat, scan_no_better; [reflexivity|].
  intros x _. right. pose proof (overlap_le_duration start end_ (snd x)). lra.
Qed.

Lemma find_speaker_empty_utterance_witness :
  find_speaker 3 3 diar_AB = UNKNOWN.
Proof. apply find_speaker_empty_utterance. discriminate. Defined.

(** ** The matcher and the enrollment *)

(** The name [identify_embedding] returns is ["Unknown"] or the name of
    an entry whose distance it reports, within the threshold. *)
Lemma identify_embedding_name {Emb : Type} (cosine : Emb -> Emb -> Q)
    (db : list (str * Emb)) (emb : Emb) :
  fst (identify_embedding cosine db emb) = Unknown \/
  exists entry, In entry db /\
    identify_embedding cosine db emb = (fst entry, cosine emb (snd entry)) /\
    (cosine emb (snd entry) <= THRESHOLD)%Q.
Proof.
  unfold identify_embedding.
  set (P := fun st : str * Q =>
              fst st = Unknown \/
              exists entry, In entry db /\ st = (fst entry, cosine emb (snd entry))).
  assert (HP : P (fold_left (identify_step cosine emb) db (Unknown, 1.0%Q))).
  { apply (fold_left_invariant _ P); [now left|].
    intros st entry Hin Hst. unfold identify_step.
    destruct (Qltb (cosine emb (snd entry)) (snd st)).
    - right. now exists entry.
    - exact Hst. }
  destruct (Qltb THRESHOLD (snd (fold_left (identify_step cosine emb) db (Unknown, 1.0%Q))))
    eqn:E; [now left|].
  destruct HP as [HP|(entry & Hin & HP)]; [now left|].
  right. exists entry. rewrite HP in *. cbn [snd] in E. apply Qltb_ge in E. auto.
Qed.

(** X4. [identify_speaker] names only enrolled speakers: when the name
    it returns is not ["Unknown"], it is the name of an enrolled entry,
    the score is the cosine distance to that entry, and that distance
    is within the threshold. *)
Theorem identify_speaker_closed_set :
  forall (Sample Emb : Type) (encode_batch : list Sample -> outcome Emb)
         (cosine : Emb -> Emb -> Q) (db : list (str * Emb))
         (audio_np : list Sample) (name : str) (score : Q),
    identify_speaker encode_batch cosine db audio_np = Ok (name, score) ->
    name <> Unknown ->
    exists emb entry,
      encode_batch audio_np = Ok emb /\ In entry db /\ name = fst entry /\
      score = cosine emb (snd entry) /\ (score <= THRESHOLD)%Q.
Proof.
  intros Sample Emb encode_batch cosine db audio_np name score H Hne.
  unfold identify_speaker in H.
  destruct (encode_batch audio_np) as [emb|c m|e]; [|discriminate..].
  rewrite bind_Ok in H. injection H as H.
  destruct (identify_embedding_name cosine db emb) as [Hu|(entry & Hin & Hr & Hle)].
  - rewrite H in Hu. now destruct Hne.
  - rewrite H in Hr. injection Hr as -> ->. exists emb, entry. auto.
Qed.

Lemma identify_speaker_closed_set_witness :
  exists emb entry,
    embed_clip query_e1 = Ok emb /\ In entry db_tie /\ Alice = fst entry /\
    (2 # 5)%Q = cosine_q emb (snd entry) /\ ((2 # 5) <= THRESHOLD)%Q.
Proof.
  apply (identify_speaker_closed_set Q (list Q) embed_clip cosine_q db_tie query_e1).
  - reflexivity.
  - discriminate.
Defined.

Section BuildMapFacts.
Context {Sample Emb : Type}.
Variable encode_batch : list Sample -> outcome Emb.
Variable cosine : Emb -> Emb -> Q.
Variable SPEAKERS : list (str * Emb).
Variable audio : list Sample.

Let good (name : str) : Prop := name = Unknown \/ In name (map fst SPEAKERS).

Lemma identify_speaker_good (clip : list Sample) (r : str * Q) :
  identify_speaker encode_batch cosine SPEAKERS clip = Ok r -> good (fst r).
Proof.
  unfold identify_speaker. destruct (encode_batch clip) as [emb|c m|e]; [|discriminate..].
  rewrite bind_Ok. intros [= <-].
  destruct (identify_embedding_name cosine SPEAKERS emb) as [Hu|(entry & Hin & -> & _)].
  - now left.
  - right. cbn [fst]. now apply in_map.
Qed.

(** What the loop over the labels leaves in the map. *)
Lemma build_loop_lookup (items : diarization) :
  forall (m0 m : gmap str str),
    build_loop encode_batch cosine SPEAKERS audio items m0 = Ok m ->
    forall label,
      (In label (map fst items) -> exists name, m !! label = Some name /\ good name) /\
      (~ In label (map fst items) -> m !! label = m0 !! label).
Proof.
  induction items as [|[spk times] items IH]; intros m0 m H label.
  - injection H as <-. split; [intros [] | reflexivity].
  - cbn [build_loop] in H.
    destruct (label_clip audio times) as [clip|c msg|e]; [|discriminate..].
    rewrite bind_Ok in H.
    destruct (identify_speaker encode_batch cosine SPEAKERS clip) as [r|c msg|e] eqn:Er;
      [|discriminate..].
    rewrite bind_Ok in H. apply identify_speaker_good in Er.
    destruct (IH _ _ H label) as [IH1 IH2]. cbn [map fst In]. split.
    + intros Hin.
      destruct (decide (label ∈ map fst items)) as [Hl|Hl];
        rewrite list_elem_of_In in Hl; [now apply IH1|].
      destruct Hin as [<-|Hin]; [|contradiction].
      rewrite (IH2 Hl), lookup_insert_eq. eauto.
    + intros Hn. rewrite IH2 by tauto. apply lookup_insert_ne. tauto.
Qed.

End BuildMapFacts.

(** X5. When [build_speaker_name_map] returns, the map has an entry for
    every label of the diarization and for no other, and every name in
    it is ["Unknown"] or the name of an enrolled speaker. *)
Theorem build_speaker_name_map_total :
  forall (Sample Emb : Type) (encode_batch : list Sample -> outcome Emb)
         (cosine : Emb -> Emb -> Q) (SPEAKERS : list (str * Emb))
         (audio : list Sample) (diar_segments : diarization) (m : gmap str str),
    build_speaker_name_map encode_batch cosine SPEAKERS audio diar_segments = Ok m ->
    forall label,
      (In label (map fst diar_segments) ->
       exists name, m !! label = Some name /\
                    (name = Unknown \/ In name (map fst SPEAKERS))) /\
      (~ In label (map fst diar_segments) -> m !! label = None).
Proof.
  intros Sample Emb encode_batch cosine SPEAKERS audio diar_segments m H label.
  destruct (build_loop_lookup encode_batch cosine SPEAKERS audio diar_segments ∅ m H label)
    as [H1 H2].
  split; [exact H1|]. intros Hn. now rewrite (H2 Hn).
Qed.

Lemma build_speaker_name_map_total_witness :
  exists name,
    (<[SPEAKER_01 := Alice]> (<[SPEAKER_00 := Alice]> (∅ : gmap str str))) !! SPEAKER_00
      = Some name /\
    (name = Unknown \/ In name (map fst db_boundary)).
Proof.
  apply (build_speaker_name_map_total Q (list Q) embed_const cosine_q db_boundary
           audio_4 diar_empty_label).
  - vm_cast_no_check
      (eq_refl (Ok (<[SPEAKER_01 := Alice]> (<[SPEAKER_00 := Alice]> (∅ : gmap str str))))).
  - now left.
Defined.

(** ** The clip of a label *)

(** The slices the loop keeps are those of a prefix of the intervals;
    they stay within the cap when the last one is left out, and an
    interval is left out only once the cap is exceeded. *)
Lemma collect_samples_shape {A : Type} (audio : list A) (times : list interval) :
  forall samples : list (list A),
    (total_len samples <= SAMPLE_RATE * 15)%Z ->
    exists n : nat,
      (n <= length times)%nat /\
      collect_samples audio times samples = samples ++ map (window audio) (take n times) /\
      (total_len (samples ++ map (window audio) (take (pred n) times))
         <= SAMPLE_RATE * 15)%Z /\
      ((n < length times)%nat ->
       (SAMPLE_RATE * 15 < total_len (collect_samples audio times samples))%Z).
Proof.
  induction times as [|iv rest IH]; intros samples Hs.
  - exists 0%nat. cbn. rewrite app_nil_r. repeat split; [lia | exact Hs | lia].
  - cbn [collect_samples].
    destruct (SAMPLE_RATE * 15 <? total_len (samples ++ [window audio iv]))%Z eqn:E.
    + exists 1%nat. cbn [length take map pred]. rewrite app_nil_r.
      repeat split; [lia | exact Hs |]. intros _. now apply Z.ltb_lt.
    + apply Z.ltb_ge in E.
      destruct (IH (samples ++ [window audio iv]) E) as (n & Hn & Hc & Hle & Hgt).
      exists (S n). cbn [length take map pred]. split; [lia|]. split; [|split].
      * rewrite Hc, <- app_assoc. reflexivity.
      * destruct n as [|n']; cbn [pred take map] in *.
        -- now rewrite app_nil_r.
        -- now rewrite <- app_assoc in Hle.
      * intros Hlt. apply Hgt. lia.
Qed.

(** X6. The clip of a label is made of the slices of the first [n] of
    its intervals, in their order, for some [n]: no interval is skipped
    before the last one taken.  Without the last slice taken the clip is
    within 15 seconds of samples, so it exceeds the cap by one slice at
    most, and intervals are left out only when the cap is exceeded. *)
Theorem collect_samples_prefix :
  forall (A : Type) (audio : list A) (times : list interval),
    exists n : nat,
      (n <= length times)%nat /\
      collect_samples audio times [] = map (window audio) (take n times) /\
      (total_len (map (window audio) (take (pred n) times)) <= SAMPLE_RATE * 15)%Z /\
      ((n < length times)%nat ->
       (SAMPLE_RATE * 15 < total_len (collect_samples audio times []))%Z).
Proof.
  intros A audio times.
  destruct (collect_samples_shape audio times []) as (n & H); [discriminate|].
  now exists n.
Qed.

(** ** Slices *)






(** ** The parsers, record by record *)






Lemma intervals_of_absent (spk : str) (d : diarization) :
  ~ In spk (map fst d) -> intervals_of spk d = [].
Proof.
  induction d as [|[k vs] d IH]; [reflexivity|]. cbn [map fst In]. intros H.
  unfold intervals_of. cbn [flat_map fst snd].
  destruct (decide (k = spk)); [tauto|]. apply IH. tauto.
Qed.

Lemma intervals_of_present (spk : str) (ivs : list interval) (d : diarization) :
  NoDup (map fst d) -> In (spk, ivs) d -> intervals_of spk d = ivs.
Proof.
  induction d as [|[k vs] d IH]; [intros _ []|]. cbn [map fst].
  intros Hnd%NoDup_cons [[= -> ->]|Hin]; destruct Hnd as [Hk Hnd];
    unfold intervals_of; cbn [flat_map fst snd].
  - rewrite decide_True by reflexivity.
    fold (intervals_of spk d). rewrite intervals_of_absent, app_nil_r; [reflexivity|].
    now rewrite <- list_elem_of_In.
  - destruct (decide (k = spk)) as [->|Hne].
    + exfalso. apply Hk. apply list_elem_of_In.
      change spk with (fst (spk, ivs)). now apply in_map.
    + now apply IH.
Qed.

Lemma dict_append_keys (k : str) (v : interval) (d : diarization) :
  map fst (dict_append k v d) =
  if decide (k ∈ map fst d) then map fst d else map fst d ++ [k].
Proof.
  induction d as [|[k' vs] d IH]; cbn [dict_append map fst app].
  - rewrite decide_False by apply not_elem_of_nil. reflexivity.
  - destruct (decide (k' = k)) as [->|Hne].
    + rewrite decide_True by apply list_elem_of_here. reflexivity.
    + cbn [map fst]. rewrite IH.
      destruct (decide (k ∈ map fst d)) as [Hin|Hin].
      * rewrite decide_True by (now apply list_elem_of_further). reflexivity.
      * rewrite decide_False; [reflexivity|].
        intros [->|H]%elem_of_cons; [now apply Hne | now apply Hin].
Qed.

Lemma dict_append_intervals (k : str) (v : interval) (d : diarization) (spk : str) :
  NoDup (map fst d) ->
  intervals_of spk (dict_append k v d) =
  intervals_of spk d ++ (if decide (k = spk) then [v] else []).
Proof.
  induction d as [|[k' vs] d IH]; intros Hnd.
  - unfold intervals_of. cbn. destruct (decide (k = spk)); reflexivity.
  - cbn [map fst] in Hnd. apply NoDup_cons in Hnd as [Hk Hnd].
    cbn [dict_append]. destruct (decide (k' = k)) as [->|Hne].
    + unfold intervals_of. cbn [flat_map fst snd]. fold (intervals_of spk d).
      destruct (decide (k = spk)) as [->|Hs].
      * rewrite intervals_of_absent by (now rewrite <- list_elem_of_In).
        now rewrite !app_nil_r.
      * now rewrite app_nil_r.
    + unfold intervals_of. cbn [flat_map fst snd].
      fold (intervals_of spk (dict_append k v d)). fold (intervals_of spk d).
      rewrite IH by exact Hnd. now rewrite app_assoc.
Qed.

Lemma dict_append_size (k : str) (v : interval) (d : diarization) :
  length (labelled_intervals (dict_append k v d)) = S (length (labelled_intervals d)).
Proof.
  unfold labelled_intervals.
  induction d as [|[k' vs] d IH]; [reflexivity|]. cbn [dict_append].
  destruct (decide (k' = k)); cbn [flat_map fst snd].
  - rewrite !length_app, !length_map, length_app. cbn. lia.
  - rewrite !length_app, IH. lia.
Qed.

Lemma dict_append_nonempty (k : str) (v : interval) (d : diarization) :
  Forall (fun item => snd item <> []) d ->
  Forall (fun item => snd item <> []) (dict_append k v d).
Proof.
  induction 1 as [|[k' vs] d Hx Hd IH]; cbn [dict_append].
  - constructor; [discriminate | constructor].
  - destruct (decide (k' = k)).
    + constructor; [|exact Hd]. cbn. now destruct vs.
    + constructor; [exact Hx | exact IH].
Qed.

Lemma grouped_append (recs : list (str * interval)) (d : diarization)
    (k : str) (v : interval) :
  grouped recs d -> grouped (recs ++ [(k, v)]) (dict_append k v d).
Proof.
  intros (Hnd & Hne & Hiv & Hlen). split; [|split; [|split]].
  - rewrite dict_append_keys. destruct (decide (k ∈ map fst d)) as [Hin|Hin]; [exact Hnd|].
    apply NoDup_app. split; [exact Hnd|]. split; [|apply NoDup_singleton].
    now intros x Hx ->%list_elem_of_singleton.
  - now apply dict_append_nonempty.
  - intros spk. rewrite dict_append_intervals by exact Hnd. rewrite Hiv.
    unfold records_of. rewrite List.filter_app, map_app. cbn [List.filter fst].
    destruct (decide (k = spk)) as [->|Hs].
    + now rewrite bool_decide_eq_true_2.
    + now rewrite bool_decide_eq_false_2.
  - rewrite dict_append_size, length_app, Hlen. cbn. lia.
Qed.

Lemma load_rttm_loop_grouped (lines : list str) :
  forall (recs : list (str * interval)) (segments d : diarization),
    grouped recs segments ->
    load_rttm_loop lines segments = Ok d ->
    grouped (recs ++ omap record_of lines) d /\
    length (omap record_of lines) = length (List.filter has_fields lines).
Proof.
  induction lines as [|line rest IH]; intros recs segments d Hg.
  - cbn. intros [= <-]. now rewrite app_nil_r.
  - cbn [load_rttm_loop omap list_omap List.filter].
    destruct (has_fields line) eqn:Ef.
    + rewrite (has_fields_true _ Ef). unfold float_of.
      destruct (py_float (field (py_split (py_strip line)) 3)) as [start|] eqn:E3;
        [|discriminate].
      destruct (py_float (field (py_split (py_strip line)) 4)) as [dur|] eqn:E4;
        [|discriminate].
      assert (Hrec : record_of line
                     = Some (field (py_split (py_strip line)) 7, (start, (start + dur)%Q)))
        by (unfold record_of; now rewrite Ef, E3, E4).
      rewrite !bind_Ok, Hrec. intros H.
      destruct (IH _ _ _ (grouped_append _ _ (field (py_split (py_strip line)) 7)
                            (start, (start + dur)%Q) Hg) H) as [H1 H2].
      rewrite <- app_assoc in H1. cbn [app] in H1. cbn [length]. now rewrite H2.
    + rewrite (has_fields_false _ Ef).
      assert (Hrec : record_of line = None) by (unfold record_of; now rewrite Ef).
      rewrite Hrec. now apply IH.
Qed.

(** X9. When [load_rttm] returns, the dictionary has each label once,
    no label without an interval, and under each label the intervals
    [(start, start + duration)] of the lines that carry it, in the
    order of the file; the intervals are as many as the lines of at
    least eight fields. *)
Theorem load_rttm_groups_by_label :
  forall (lines : list str) (d : diarization),
    load_rttm lines = Ok d ->
    NoDup (map fst d) /\
    (forall spk ivs, In (spk, ivs) d ->
       ivs <> [] /\ ivs = records_of spk (omap record_of lines)) /\
    (forall spk, ~ In spk (map fst d) -> records_of spk (omap record_of lines) = []) /\
    length (labelled_intervals d) = length (List.filter has_fields lines).
Proof.
  intros lines d H. unfold load_rttm in H.
  destruct (load_rttm_loop lines []) as [d'|c m|e] eqn:El; [|discriminate..].
  rewrite bind_Ok in H. destruct d' as [|x d']; [discriminate|]. injection H as <-.
  assert (Hg0 : grouped [] []).
  { split; [constructor|]. split; [constructor|]. split; reflexivity. }
  destruct (load_rttm_loop_grouped lines [] [] _ Hg0 El) as [(Hnd & Hne & Hiv & Hlen) Hcount].
  cbn [app] in *. split; [exact Hnd|]. split; [|split].
  - intros spk ivs Hin. split.
    + rewrite Forall_forall in Hne. apply (Hne (spk, ivs)). now apply list_elem_of_In.
    + rewrite <- Hiv. symmetry. now apply intervals_of_present.
  - intros spk Hn. rewrite <- Hiv. now apply intervals_of_absent.
  - now rewrite Hlen.
Qed.

Lemma load_rttm_groups_by_label_witness :
  length (labelled_intervals [(SPEAKER_00, [(0.50, 0.50 + 1.25)%Q])])
  = length (List.filter has_fields (s2l "# header" :: rttm_good)).
Proof.
  apply (load_rttm_groups_by_label (s2l "# header" :: rttm_good)). reflexivity.
Defined.

(** ** The whole run *)



(** ** Numbers in decimal *)





(** ** What [format(x, ".2f")] prints *)







(** ** From the transcript file back to the chunks *)









(** ** [orcastrate.py]: its own transcript *)







(** ** [orcastrate.py]: attribution by the start of the utterance *)

Lemma orcastrate_holds_bool (start : Q) (d : orcastrate.segment) :
  Qle_bool (orcastrate.d_start d) start && Qle_bool start (orcastrate.d_end d) = true
  <-> orcastrate.holds start d.
Proof.
  unfold orcastrate.holds. rewrite andb_true_iff, !Qle_bool_iff. reflexivity.
Qed.

Lemma orcastrate_find_speaker_none (start : Q) (segs : list orcastrate.segment) :
  (forall d, In d segs -> ~ orcastrate.holds start d) ->
  orcastrate.find_speaker start segs = UNKNOWN.
Proof.
  induction segs as [|d segs IH]; intros H; [reflexivity|].
  cbn [orcastrate.find_speaker].
  destruct (Qle_bool (orcastrate.d_start d) start && Qle_bool start (orcastrate.d_end d))
    eqn:E.
  - apply orcastrate_holds_bool in E. now destruct (H d (or_introl eq_refl)).
  - apply IH. intros x Hx. apply H. now right.
Qed.

Lemma orcastrate_find_speaker_first (start : Q) (pre post : list orcastrate.segment)
    (d : orcastrate.segment) :
  (forall x, In x pre -> ~ orcastrate.holds start x) ->
  orcastrate.holds start d ->
  orcastrate.find_speaker start (pre ++ d :: post) = orcastrate.d_speaker d.
Proof.
  intros Hpre Hd. induction pre as [|x pre IH]; cbn [app orcastrate.find_speaker].
  - apply orcastrate_holds_bool in Hd. now rewrite Hd.
  - destruct (Qle_bool (orcastrate.d_start x) start && Qle_bool start (orcastrate.d_end x))
      eqn:E.
    + apply orcastrate_holds_bool in E. now destruct (Hpre x (or_introl eq_refl)).
    + apply IH. intros y Hy. apply Hpre. now right.
Qed.

(** X13. [find_speaker] of [orcastrate.py] returns the speaker of the
    first segment, in the order of the file, that holds the start of
    the utterance, both ends included, and ["UNKNOWN"] when no segment
    holds it; one of the two cases always applies.  The end of the
    utterance plays no part. *)
Theorem orcastrate_find_speaker_by_start :
  forall (start : Q) (segs : list orcastrate.segment),
    ((forall d, In d segs -> ~ orcastrate.holds start d) ->
     orcastrate.find_speaker start segs = UNKNOWN) /\
    (forall pre d post,
       segs = pre ++ d :: post ->
       (forall x, In x pre -> ~ orcastrate.holds start x) ->
       orcastrate.holds start d ->
       orcastrate.find_speaker start segs = orcastrate.d_speaker d) /\
    ((forall d, In d segs -> ~ orcastrate.holds start d) \/
     exists pre d post,
       segs = pre ++ d :: post /\
       (forall x, In x pre -> ~ orcastrate.holds start x) /\
       orcastrate.holds start d).
Proof.
  intros start segs. split; [apply orcastrate_find_speaker_none|]. split.
  - intros pre d post -> Hpre Hd. now apply orcastrate_find_speaker_first.
  - induction segs as [|d segs IH]; [left; intros d []|].
    destruct (Qle_bool (orcastrate.d_start d) start && Qle_bool start (orcastrate.d_end d))
      eqn:E.
    + right. exists [], d, segs. split; [reflexivity|]. split; [intros x []|].
      now apply orcastrate_holds_bool.
    + assert (Hd : ~ orcastrate.holds start d).
      { intros H. apply orcastrate_holds_bool in H. congruence. }
      destruct IH as [IH|(pre & x & post & -> & Hpre & Hx)].
      * left. intros y [<-|Hy]; [exact Hd | now apply IH].
      * right. exists (d :: pre), x, post. split; [reflexivity|]. split; [|exact Hx].
        intros y [<-|Hy]; [exact Hd | now apply Hpre].
Qed.

Lemma orcastrate_find_speaker_by_start_witness :
  orcastrate.find_speaker 5 segs_AB = S1.
Proof.
  destruct (orcastrate_find_speaker_by_start 5 segs_AB) as (_ & H & _).
  apply (H [] (orcastrate.Segment 0 5 S1) [orcastrate.Segment 5 10 S2]).
  - reflexivity.
  - intros x [].
  - split; discriminate.
Defined.

Lemma py_min_le_r (a b : Q) : (py_min a b <= b)%Q.
Proof.
  unfold py_min. destruct (Qltb b a) eqn:E; [apply Qle_refl|]. now apply Qltb_ge.
Qed.

(** An interval that ends by the start of the utterance does not
    overlap it. *)
Lemma overlap_ends_before (start end_ : Q) (iv : interval) :
  (snd iv <= start)%Q -> (overlap start end_ iv <= 0)%Q.
Proof.
  intros H. unfold overlap.
  pose proof (py_min_le_r end_ (snd iv)). pose proof (py_max_ge_l start (fst iv)). lra.
Qed.

(** The label [find_speaker] returns is ["UNKNOWN"] or that of an
    interval that overlaps the utterance. *)
Lemma find_speaker_in_labels (start end_ : Q) (d : diarization) :
  find_speaker start end_ d = UNKNOWN \/
  exists iv, In (find_speaker start end_ d, iv) (labelled_intervals d) /\
             (0 < overlap start end_ iv)%Q.
Proof.
  unfold find_speaker. rewrite find_speaker_loop_flat.
  set (P := fun st : str * Q =>
              fst st = UNKNOWN \/
              exists iv, In (fst st, iv) (labelled_intervals d) /\
                         (0 < overlap start end_ iv)%Q).
  apply (fold_left_invariant _ P).
  - now left.
  - intros st [spk iv] Hin HP. unfold find_speaker_step. cbn [fst snd].
    destruct (Qltb (snd st) (overlap start end_ iv) && Qltb 0 (overlap start end_ iv))
      eqn:E; [|exact HP].
    apply andb_true_iff in E as [_ E]. apply Qltb_lt in E.
    right. exists iv. cbn [fst]. now split.
Qed.

(** X14. The two attributions disagree at a boundary.  When the first
    segment that holds the start of the utterance belongs to a speaker
    all of whose intervals end by that start, [find_speaker] of
    [orcastrate.py] returns that speaker, and [find_speaker] of
    [buildspeakertraans.py], which goes by overlap, does not. *)
Theorem attributions_disagree_at_boundary :
  forall (start end_ : Q) (d : diarization)
         (pre post : list orcastrate.segment) (a : orcastrate.segment),
    (forall x, In x pre -> ~ orcastrate.holds start x) ->
    orcastrate.holds start a ->
    orcastrate.d_speaker a <> UNKNOWN ->
    (forall iv, In (orcastrate.d_speaker a, iv) (labelled_intervals d) ->
                (snd iv <= start)%Q) ->
    orcastrate.find_speaker start (pre ++ a :: post) = orcastrate.d_speaker a /\
    find_speaker start end_ d <> orcastrate.d_speaker a.
Proof.
  intros start end_ d pre post a Hpre Ha Hne Hends. split.
  - now apply orcastrate_find_speaker_first.
  - intros E. destruct (find_speaker_in_labels start end_ d) as [Hu|(iv & Hin & Hpos)].
    + congruence.
    + rewrite E in Hin. apply Hends in Hin.
      pose proof (overlap_ends_before start end_ iv Hin). lra.
Qed.

Lemma attributions_disagree_at_boundary_witness :
  orcastrate.find_speaker 5 segs_AB = S1 /\ find_speaker 5 7 diar_AB <> S1.
Proof.
  apply (attributions_disagree_at_boundary 5 7 diar_AB []
           [orcastrate.Segment 5 10 S2] (orcastrate.Segment 0 5 S1)).
  - intros x [].
  - split; discriminate.
  - discriminate.
  - intros iv [[= <-]|[[=]|[]]]. discriminate.
Defined.

(** X1. [find_speaker] returns ["UNKNOWN"] or the label of an interval
    of the diarization that overlaps the utterance: it never names a
    speaker who is silent during the utterance. *)
Theorem find_speaker_label_overlaps :
  forall (start end_ : Q) (d : diarization),
    find_speaker start end_ d = UNKNOWN \/
    exists iv, In (find_speaker start end_ d, iv) (labelled_intervals d) /\
               (0 < overlap start end_ iv)%Q.
Proof. intros start end_ d. apply find_speaker_in_labels. Qed.

(** ** The two [load_rttm] *)

Lemma orcastrate_load_rttm_loop_records (lines : list str) :
  no_eight_field_line lines ->
  forall segs0 segs,
    orcastrate.load_rttm_loop lines segs0 = Ok segs ->
    map segment_record segs = map segment_record segs0 ++ omap record_of lines.
Proof.
  induction 1 as [|line rest Hl _ IH]; intros segs0 segs.
  - cbn. intros [= <-]. now rewrite app_nil_r.
  - cbn [orcastrate.load_rttm_loop]. unfold omap. cbn [list_omap]. fold (omap record_of rest).
    unfold record_of at 1. unfold has_fields.
    destruct (length (py_split (py_strip line)) <? 9)%nat eqn:E9.
    + assert (E8 : (length (py_split (py_strip line)) <? 8)%nat = true).
      { apply Nat.ltb_lt in E9. apply Nat.ltb_lt. lia. }
      rewrite E8. cbn [negb]. apply IH.
    + assert (E8 : (length (py_split (py_strip line)) <? 8)%nat = false).
      { apply Nat.ltb_ge in E9. apply Nat.ltb_ge. lia. }
      rewrite E8. cbn [negb]. unfold float_of.
      destruct (py_float (field (py_split (py_strip line)) 3)) as [start|]; [|discriminate].
      destruct (py_float (field (py_split (py_strip line)) 4)) as [dur|]; [|discriminate].
      rewrite !bind_Ok. intros H. rewrite (IH _ _ H), map_app, <- app_assoc. reflexivity.
Qed.

(** X15. On a diarization file where no line has exactly eight fields,
    the two [load_rttm] read the same intervals: when both return, the
    list of [orcastrate.py] has as many segments as the dictionary of
    [buildspeakertraans.py] has intervals, and the intervals under a
    label of the dictionary are the segments of that speaker, in the
    order of the list. *)
Theorem load_rttm_versions_agree :
  forall (lines : list str) (d : diarization) (segs : list orcastrate.segment),
    no_eight_field_line lines ->
    load_rttm lines = Ok d ->
    orcastrate.load_rttm lines = Ok segs ->
    length segs = length (labelled_intervals d) /\
    (forall spk ivs, In (spk, ivs) d ->
       ivs = records_of spk (map segment_record segs)).
Proof.
  intros lines d segs Hno Hd Hs.
  apply (orcastrate_load_rttm_loop_records lines Hno []) in Hs. cbn [map app] in Hs.
  unfold load_rttm in Hd.
  destruct (load_rttm_loop lines []) as [d'|c m|e] eqn:El; [|discriminate..].
  rewrite bind_Ok in Hd. destruct d' as [|x d']; [discriminate|]. injection Hd as <-.
  assert (Hg0 : grouped [] []).
  { split; [constructor|]. split; [constructor|]. split; reflexivity. }
  destruct (load_rttm_loop_grouped lines [] [] _ Hg0 El) as [(Hnd & _ & Hiv & Hlen) _].
  cbn [app] in *. split.
  - rewrite Hlen, <- Hs. now rewrite length_map.
  - intros spk ivs Hin. rewrite Hs, <- Hiv. symmetry. now apply intervals_of_present.
Qed.

Lemma load_rttm_versions_agree_witness :
  length [orcastrate.Segment 0.50 (0.50 + 1.25) SPEAKER_00]
  = length (labelled_intervals [(SPEAKER_00, [(0.50, 0.50 + 1.25)%Q])]).
Proof.
  apply (load_rttm_versions_agree rttm_good).
  - constructor; [discriminate | constructor].
  - reflexivity.
  - reflexivity.
Defined.

(** ** [server.py]: [allowed_file] *)

(** [rsplit('.', 1)] cuts at the last point. *)
Lemma rsplit_dot_spec (s : str) :
  (existsb server.is_dot s = false /\ server.rsplit_dot s = [s]) \/
  (exists a b, s = a ++ "."%char :: b /\ existsb server.is_dot b = false /\
               existsb server.is_dot s = true /\ server.rsplit_dot s = [a; b]).
Proof.
  induction s as [|c t IH].
  - left. now split.
  - cbn [server.rsplit_dot existsb]. destruct IH as [[Hn ->]|(a & b & -> & Hb & Ht & ->)].
    + destruct (server.is_dot c) eqn:Ec.
      * right. exists [], t. unfold server.is_dot in Ec. apply Ascii.eqb_eq in Ec.
        subst c. now repeat split.
      * left. now rewrite Hn.
    + right. exists (c :: a), b. rewrite Ht, orb_true_r. now repeat split.
Qed.

Lemma rsplit_dot_cut (a b : str) :
  existsb server.is_dot b = false ->
  server.rsplit_dot (a ++ "."%char :: b) = [a; b] /\
  existsb server.is_dot (a ++ "."%char :: b) = true.
Proof.
  intros Hb. induction a as [|c a [IH1 IH2]]; cbn [app server.rsplit_dot existsb].
  - destruct (rsplit_dot_spec b) as [[_ ->]|(x & y & _ & _ & E & _)]; [|congruence].
    now split.
  - rewrite IH1, IH2, orb_true_r. now split.
Qed.

(** X16. [allowed_file] accepts a name exactly when it has a point and
    the text after its last point is, letter case aside, one of [mp3],
    [wav], [m4a], [flac], [ogg]: a name without a point is refused, and
    only the last extension counts. *)
Theorem allowed_file_last_extension :
  forall filename : str,
    server.allowed_file filename = true <->
    exists stem ext,
      filename = stem ++ "."%char :: ext /\
      existsb server.is_dot ext = false /\
      server.py_lower ext ∈ server.ALLOWED_EXTENSIONS.
Proof.
  intros filename. unfold server.allowed_file. split.
  - intros H. apply andb_true_iff in H as [Hdot Hin]. apply bool_decide_eq_true in Hin.
    destruct (rsplit_dot_spec filename) as [[Hn _]|(a & b & -> & Hb & _ & E)];
      [congruence|].
    rewrite E in Hin. exists a, b. auto.
  - intros (stem & ext & -> & Hext & Hin).
    destruct (rsplit_dot_cut stem ext Hext) as [-> ->].
    cbn [nth andb]. now apply bool_decide_eq_true.
Qed.

Lemma allowed_file_last_extension_witness :
  server.allowed_file (s2l "meeting.final.FLAC") = true.
Proof.
  apply (proj2 (allowed_file_last_extension (s2l "meeting.final.FLAC"))).
  exists (s2l "meeting.final"), (s2l "FLAC").
  split; [reflexivity|]. split; [reflexivity|]. vm_compute. reflexivity.
Defined.

(** X17. [allowed_file] does not look at the case of the extension nor
    at what stands before the last point: two names whose last
    extensions are equal once their letters A to Z are lowered are
    accepted or refused together. *)
Theorem allowed_file_case_insensitive :
  forall stem1 stem2 ext1 ext2 : str,
    existsb server.is_dot ext1 = false ->
    existsb server.is_dot ext2 = false ->
    server.py_lower ext1 = server.py_lower ext2 ->
    server.allowed_file (stem1 ++ "."%char :: ext1)
    = server.allowed_file (stem2 ++ "."%char :: ext2).
Proof.
  intros stem1 stem2 ext1 ext2 H1 H2 E. unfold server.allowed_file.
  destruct (rsplit_dot_cut stem1 ext1 H1) as [-> ->].
  destruct (rsplit_dot_cut stem2 ext2 H2) as [-> ->].
  cbn [nth]. now rewrite E.
Qed.

Lemma allowed_file_case_insensitive_witness :
  server.allowed_file (s2l "Board.Meeting" ++ "."%char :: s2l "WAV")
  = server.allowed_file (s2l "x" ++ "."%char :: s2l "wav").
Proof.
  apply allowed_file_case_insensitive; reflexivity.
Defined.

(** ** The two transcript patterns *)

(** [\d+\.\d+] before a continuation that does not accept a digit
    first takes the longest runs. *)
Lemma re_decimal_longest {R : Type} (k : @matcher R) (s : str) :
  (forall c t, is_digit c = true -> k (c :: t) = None) ->
  orcastrate.re_decimal k s = match decimal_end s with Some r => k r | None => None end.
Proof.
  intros Hk. unfold orcastrate.re_decimal, plus at 1, decimal_end.
  destruct s as [|c s]; [reflexivity|]. destruct (is_digit c); [|reflexivity].
  rewrite star_longest.
  - unfold lit, plus. destruct (drop_while is_digit s) as [|d [|e t]]; [reflexivity|..].
    + destruct (Ascii.eqb "."%char d); reflexivity.
    + destruct (Ascii.eqb "."%char d); [|reflexivity]. cbn [andb].
      destruct (is_digit e); [|reflexivity]. now apply star_longest.
  - intros d t Hd. unfold lit. now rewrite (digit_not_dot d Hd).
Qed.

Lemma group_number_longest_decimal {R : Type} (k : str -> @matcher R) (s : str) :
  (forall g c t, is_digit c = true -> k g (c :: t) = None) ->
  group orcastrate.re_decimal k s =
  match decimal_end s with
  | Some r => k (take (length s - length r) s) r
  | None => None
  end.
Proof.
  intros H. unfold group. rewrite re_decimal_longest; [reflexivity|].
  intros c t Hc. now apply H.
Qed.

(** Where [\d+\.\d+] ends, [\d+\.?\d*] ends too. *)
Lemma decimal_end_number_end (s r : str) :
  decimal_end s = Some r -> number_end s = Some r.
Proof.
  unfold decimal_end, number_end. destruct s as [|c s]; [discriminate|].
  destruct (is_digit c); [|discriminate].
  destruct (drop_while is_digit s) as [|d [|e t]]; try discriminate.
  destruct (Ascii.eqb "."%char d); [|discriminate]. cbn [andb].
  destruct (is_digit e) eqn:Ee; [|discriminate]. intros [= <-].
  cbn [drop_while]. now rewrite Ee.
Qed.

Lemma decimal_end_head (s r : str) :
  decimal_end s = Some r -> exists c t, s = c :: t /\ is_digit c = true.
Proof.
  unfold decimal_end. destruct s as [|c s]; [discriminate|].
  destruct (is_digit c) eqn:E; [eauto | discriminate].
Qed.

Lemma strip_prefix_arrow_right (s r : str) :
  strip_prefix arrow_right s = Some r -> arrow_end s = Some r.
Proof. unfold arrow_end. now intros ->. Qed.

(** The third group of either pattern, after the blanks that follow the
    bracket. *)
Lemma text_part_longest (g1 g2 s : str) (c : ascii) (u : str) :
  drop_while is_space s = c :: u ->
  text_part g1 g2 s = Some (g1, g2, c :: take_while not_newline u).
Proof.
  intros Es. unfold text_part. apply star_first. rewrite Es.
  pose proof (drop_while_head _ _ _ _ Es) as Hc.
  unfold group, plus.
  destruct (not_newline c) eqn:En;
    [|apply space_not_newline_free in En; congruence].
  apply star_first. f_equal. f_equal.
  pose proof (take_drop_while not_newline u) as Hu.
  rewrite <- Hu at 1 3.
  change (c :: take_while not_newline u ++ drop_while not_newline u)
    with ((c :: take_while not_newline u) ++ drop_while not_newline u).
  apply take_app_length_rest.
Qed.

Lemma orcastrate_text_longest (g1 g2 s : str) :
  star is_space (group (star not_newline)
                   (fun g3 _ => Some (g1, g2, g3))) s
  = Some (g1, g2, take_while not_newline (drop_while is_space s)).
Proof.
  apply star_first. unfold group. apply star_first. f_equal. f_equal.
  pose proof (take_drop_while not_newline (drop_while is_space s)) as Hu.
  rewrite <- Hu at 1 3. apply take_app_length_rest.
Qed.

(** X18. The pattern of [buildspeakertraans.py] keeps what the pattern
    of [orcastrate.py] reads: a stripped line that the latter matches
    with a text that is not empty is matched by the former with the
    same three groups.  A line the latter matches with an empty text is
    skipped by the former. *)
Theorem transcript_pattern_relaxed :
  forall (line g1 g2 g3 : str),
    orcastrate.pattern_match (py_strip line) = Some (g1, g2, g3) ->
    (g3 <> [] -> pattern_match (py_strip line) = Some (g1, g2, g3)) /\
    (g3 = [] -> pattern_match (py_strip line) = None).
Proof.
  intros line g1 g2 g3. rewrite pattern_match_head.
  unfold orcastrate.pattern_match, lit at 1.
  remember (py_strip line) as s eqn:Es.
  destruct s as [|b s1]; [discriminate|].
  destruct (Ascii.eqb "["%char b); [|discriminate].
  rewrite group_number_longest_decimal
    by (intros g c t Hc; cbn [star]; rewrite (digit_not_space c Hc);
        rewrite word_strip_prefix; unfold arrow_right;
        cbn [s2l list_ascii_of_string strip_prefix];
        now rewrite (proj1 (digit_not_arrow c Hc))).
  destruct (decimal_end s1) as [r1|] eqn:E1; [|discriminate].
  destruct (decimal_end_head _ _ E1) as (c1 & t1 & Ec1 & Hc1).
  assert (Hd1 : drop_while is_space s1 = s1)
    by (rewrite Ec1; apply drop_while_stop; now apply digit_not_space).
  rewrite Hd1, (decimal_end_number_end _ _ E1).
  rewrite star_longest
    by (intros x t Hx; rewrite word_strip_prefix; unfold arrow_right;
        cbn [s2l list_ascii_of_string strip_prefix];
        now rewrite (proj1 (space_not_arrow x Hx))).
  rewrite word_strip_prefix.
  destruct (strip_prefix arrow_right (drop_while is_space r1)) as [r2|] eqn:E2;
    [|discriminate].
  rewrite (strip_prefix_arrow_right _ _ E2), after_arrow_longest.
  rewrite star_longest
    by (intros x t Hx; unfold group, orcastrate.re_decimal, plus;
        now rewrite (space_not_digit x Hx)).
  rewrite group_number_longest_decimal
    by (intros g c t Hc; unfold lit; now rewrite (digit_not_bracket c Hc)).
  destruct (decimal_end (drop_while is_space r2)) as [r3|] eqn:E3; [|discriminate].
  rewrite (decimal_end_number_end _ _ E3).
  unfold lit at 1. destruct r3 as [|c3 r4]; [discriminate|].
  destruct (Ascii.eqb "]"%char c3) eqn:Eb; [|discriminate].
  apply Ascii.eqb_eq in Eb. subst c3.
  rewrite drop_while_stop by reflexivity. eqb_consts.
  rewrite orcastrate_text_longest. intros [= <- <- <-].
  destruct (drop_while is_space r4) as [|c u] eqn:E4.
  - split; [now intros H|]. intros _.
    assert (Hr4 : r4 = []).
    { apply (py_strip_no_blank_suffix line); [|now apply drop_while_nil].
      rewrite <- Es. apply suffix_cons_r.
      etrans; [|apply (number_end_suffix _ _ (decimal_end_number_end _ _ E1))].
      etrans; [|apply drop_while_suffix].
      assert (Ha : r2 `suffix_of` drop_while is_space r1).
      { clear -E2. revert E2. generalize (drop_while is_space r1). generalize arrow_right.
        induction l as [|a w IH]; intros s; cbn.
        - now intros [= ->].
        - destruct s as [|a' s]; [discriminate|].
          destruct (Ascii.eqb a a'); [|discriminate].
          intros H. apply suffix_cons_r. now apply IH. }
      etrans; [|exact Ha].
      etrans; [|apply drop_while_suffix].
      etrans; [|apply (number_end_suffix _ _ (decimal_end_number_end _ _ E3))].
      now apply suffix_cons_r. }
    subst r4. reflexivity.
  - pose proof (drop_while_head _ _ _ _ E4) as Hc.
    assert (Hn : not_newline c = true).
    { destruct (not_newline c) eqn:En; [reflexivity|].
      apply space_not_newline_free in En. congruence. }
    cbn [take_while]. rewrite Hn. split; [|discriminate]. intros _.
    now apply text_part_longest.
Qed.

Lemma transcript_pattern_relaxed_witness :
  pattern_match (py_strip (s2l "[1.5→2.25] hello" ++ newline))
  = Some (s2l "1.5", s2l "2.25", s2l "hello").
Proof.
  destruct (transcript_pattern_relaxed (s2l "[1.5→2.25] hello" ++ newline)
              (s2l "1.5") (s2l "2.25") (s2l "hello")) as [H _].
  - reflexivity.
  - apply H. discriminate.
Defined.
